(** * Vitals dashboard: reconciliation, rolling history and the worker protocol

    A shallow embedding of the client-side reconciliation code of the
    dashboard (the [Dashboard] component: [arePatientsEqual],
    [buildSeedHistory], [appendHistory], the [pushHistoryBatch] and
    [applyUpdates] handlers) and of the server-side worker protocol
    ([encryptWorker.ts], [runEncryptionInWorker]).

    Modelling decisions.
    - A JavaScript [number] is an IEEE 754 binary64 value: Rocq's primitive
      [float].  [===] on numbers is IEEE equality ([NaN] differs from itself,
      [+0] equals [-0]).
    - Objects and arrays have an identity.  An object is a pair of an address
      and its content; [===] on objects compares addresses.  Every object of
      this code is frozen once the function that builds it returns, so the
      content travels with the address.  Allocation threads the next free
      address through the [Alloc] monad.
    - [Map] keeps its keys in insertion order: an association list.
    - The history state ([Record<string, number[]>]) is a finite map from
      strings ([gmap]); ids are assumed not to name members of
      [Object.prototype].
    - [String.length] counts bytes where JavaScript counts UTF-16 code units;
      they agree on ASCII ids. *)

From Stdlib Require Import Floats.
From stdpp Require Import gmap strings list.

#[local] Set Warnings "-clear-no-such-hyp".

(** ** Numbers *)

Abbreviation number := float (only parsing).

(** [a === b] on numbers. *)
Definition strict_eq (a b : number) : bool := PrimFloat.eqb a b.

(** Truthiness of a number: [0], [-0] and [NaN] are falsy. *)
Definition truthy (x : number) : bool :=
  negb (PrimFloat.eqb x 0 || PrimFloat.is_nan x).

(** [a || b] on numbers. *)
Definition or_else (a b : number) : number := if truthy a then a else b.

(** [Math.max(a, b)]. *)
Definition Math_max (a b : number) : number :=
  if PrimFloat.is_nan a || PrimFloat.is_nan b then nan
  else if PrimFloat.ltb a b then b
  else if PrimFloat.ltb b a then a
  else if PrimFloat.eqb a 0 then (a + b)%float
  else a.

(** The literal [0.6], rounded to the nearest binary64 value. *)
Definition six_tenths : number := 0x1.3333333333333p-1%float.

(** An integer index or length read as a number. *)
Definition of_nat (n : nat) : number :=
  PrimFloat.of_uint63 (Uint63.of_Z (Z.of_nat n)).

(** ** Objects with identity and allocation *)

Definition loc := nat.

Record object (A : Type) := Object { addr : loc; content : A }.
Arguments Object {A} addr content.
Arguments addr {A} o.
Arguments content {A} o.

(** [a === b] on objects: same address. *)
Definition same_ref {A} (a b : object A) : bool := bool_decide (addr a = addr b).

Abbreviation Array A := (object (list A)) (only parsing).

(** A computation that may allocate: from the next free address to a result
    and the next free address afterwards. *)
Definition Alloc (A : Type) : Type := loc → A * loc.

Definition ret {A} (a : A) : Alloc A := λ n, (a, n).

Definition bind {A B} (c : Alloc A) (k : A → Alloc B) : Alloc B :=
  λ n, let (a, n') := c n in k a n'.

Notation "'let*' x ':=' c 'in' k" := (bind c (λ x, k))
  (at level 10, x pattern, c at level 100, k at level 200).

(** A new object holding [v]. *)
Definition alloc {A} (v : A) : Alloc (object A) := λ n, (Object n v, S n).

(** The address of an object whose content is filled in afterwards
    ([const next = []], [const next = { ...prev }]). *)
Definition fresh : Alloc loc := λ n, (n, S n).

(** ** Patient records *)

Record PatientVitals := {
  id : string;
  heartRate : number;
  bloodPressureSystolic : number;
  bloodPressureDiastolic : number;
  oxygenSaturation : number;
  respiratoryRate : number;
  temperature : number;
  timestamp : number
}.

Abbreviation Patient := (object PatientVitals) (only parsing).

(** [patient.id] *)
Definition pid (p : Patient) : string := id (content p).
(** [patient.heartRate] *)
Definition hr (p : Patient) : number := heartRate (content p).

Definition HISTORY_LENGTH : nat := 20.

Definition arePatientsEqual (a b : Patient) : bool :=
  strict_eq (heartRate (content a)) (heartRate (content b)) &&
  strict_eq (bloodPressureSystolic (content a)) (bloodPressureSystolic (content b)) &&
  strict_eq (bloodPressureDiastolic (content a)) (bloodPressureDiastolic (content b)) &&
  strict_eq (oxygenSaturation (content a)) (oxygenSaturation (content b)) &&
  strict_eq (respiratoryRate (content a)) (respiratoryRate (content b)) &&
  strict_eq (temperature (content a)) (temperature (content b)) &&
  strict_eq (timestamp (content a)) (timestamp (content b)).

(** ** [Map]: insertion-ordered, unique keys *)

Abbreviation JsMap V := (list (string * V)) (only parsing).

Section JsMap.
Context {V : Type}.

Definition Map_keys (m : JsMap V) : list string := m.*1.

(** [m.set(k, v)]: an existing key keeps its position and takes the new
    value; a new key goes last. *)
Fixpoint Map_set (k : string) (v : V) (m : JsMap V) : JsMap V :=
  match m with
  | [] => [(k, v)]
  | (k', v') :: m' =>
      if decide (k' = k) then (k, v) :: m' else (k', v') :: Map_set k v m'
  end.

(** [new Map(entries)] *)
Definition Map_new (entries : list (string * V)) : JsMap V :=
  foldl (λ m e, Map_set e.1 e.2 m) [] entries.

(** [m.get(k)], [None] for [undefined]. *)
Fixpoint Map_get (k : string) (m : JsMap V) : option V :=
  match m with
  | [] => None
  | (k', v) :: m' => if decide (k' = k) then Some v else Map_get k m'
  end.

(** [m.delete(k)] *)
Fixpoint Map_delete (k : string) (m : JsMap V) : JsMap V :=
  match m with
  | [] => []
  | (k', v) :: m' =>
      if decide (k' = k) then m' else (k', v) :: Map_delete k m'
  end.
End JsMap.

(** ** Reconciler: the updater that [applyUpdates] hands to [setPatients] *)

(** The variables the two [forEach] callbacks close over. *)
Record MergeState := {
  updateMap : JsMap (object PatientVitals);
  nextPatients : list (object PatientVitals);
  changed : bool
}.

(** Body of [prevPatients.forEach(patient => ...)].  [updated] is an object,
    so [if (updated)] tests presence. *)
Definition merge_visit (st : MergeState) (patient : Patient) : MergeState :=
  match Map_get (pid patient) (updateMap st) with
  | Some updated =>
      let m := Map_delete (pid patient) (updateMap st) in
      if negb (arePatientsEqual patient updated)
      then {| updateMap := m;
              nextPatients := nextPatients st ++ [updated];
              changed := true |}
      else {| updateMap := m;
              nextPatients := nextPatients st ++ [patient];
              changed := changed st |}
  | None =>
      {| updateMap := updateMap st;
         nextPatients := nextPatients st ++ [patient];
         changed := changed st |}
  end.

(** Body of [updateMap.forEach(newPatient => ...)]. *)
Definition merge_append (st : MergeState) (entry : string * Patient) : MergeState :=
  {| updateMap := updateMap st;
     nextPatients := nextPatients st ++ [entry.2];
     changed := true |}.

(** The state after both loops. *)
Definition merge_loops (updates prevPatients : list Patient) : MergeState :=
  let st0 := {| updateMap := Map_new ((λ update, (pid update, update)) <$> updates);
                nextPatients := [];
                changed := false |} in
  let st1 := foldl merge_visit st0 prevPatients in
  foldl merge_append st1 (updateMap st1).

(** The updater itself:
    [prevPatients => { ... return changed ? nextPatients : prevPatients }]. *)
Definition applyUpdates_updater (updates : list Patient)
    (prevPatients : Array Patient) : Alloc (Array Patient) :=
  let* a := fresh in
  let st := merge_loops updates (content prevPatients) in
  ret (if changed st then Object a (nextPatients st) else prevPatients).

(** ** History buffer *)

(** [a.slice(-k)] for [k > 0]: the trailing [k] elements, all of them when
    the array is shorter. *)
Definition slice_last {A} (k : nat) (l : list A) : list A :=
  drop (length l - k) l.

(** [base[base.length - 1] === nextValue]; reading index [-1] of an empty
    array gives [undefined], which is not [===] to a number. *)
Definition last_is (nextValue : number) (base : list number) : bool :=
  match base !! (length base - 1) with
  | Some x => strict_eq x nextValue
  | None => false
  end.

(** ** Property reads on the history object

    The history map is a plain object, so [prev[update.id]] also finds what
    the object inherits from [Object.prototype].  An own key shadows the
    inherited member of the same name, except ["__proto__"], which is an
    accessor on the prototype and never an own key of an object built by
    [{}], spread and assignment. *)
Definition Object_prototype_members : list string :=
  [ "constructor"; "__defineGetter__"; "__defineSetter__"; "hasOwnProperty";
    "__lookupGetter__"; "__lookupSetter__"; "isPrototypeOf";
    "propertyIsEnumerable"; "toString"; "valueOf"; "__proto__";
    "toLocaleString" ]%string.

(** What [prev[k]] evaluates to: a stored history, an inherited member (a
    function, or the prototype itself for ["__proto__"]), or [undefined]. *)
Inductive PropertyRead :=
  | ReadHistory (h : Array number)
  | ReadInherited
  | ReadUndefined.

Definition read_history (prev : gmap string (Array number)) (k : string)
    : PropertyRead :=
  if bool_decide (k = "__proto__"%string) then ReadInherited
  else match prev !! k with
       | Some h => ReadHistory h
       | None =>
           if bool_decide (k ∈ Object_prototype_members) then ReadInherited
           else ReadUndefined
       end.

Section History.
(** [Math.sin] and [Math.round] are not available on primitive floats;
    the code is modelled for any two such functions. *)
Context (Math_sin Math_round : number → number).

Definition buildSeedHistory (patient : Patient) : Alloc (Array number) :=
  let base := or_else (hr patient) 70%float in
  let offset := String.length (pid patient) `mod` 7 in
  alloc ((λ i,
            let wave := (Math_sin (of_nat (i + offset) * six_tenths) * 3)%float in
            Math_max 30%float (Math_round (base + wave)%float))
           <$> seq 0 HISTORY_LENGTH).

(** [history ?? buildSeedHistory(patient)] *)
Definition history_or_seed (history : option (Array number))
    (patient : Patient) : Alloc (Array number) :=
  match history with
  | Some h => ret h
  | None => buildSeedHistory patient
  end.

Definition appendHistory (history : option (Array number))
    (nextValue : number) (patient : Patient) : Alloc (Array number) :=
  let* base := history_or_seed history patient in
  if last_is nextValue (content base) then ret base
  else
    let sliced := slice_last (HISTORY_LENGTH - 1) (content base) in
    alloc (sliced ++ [nextValue]).

(** Body of [updates.forEach(update => ...)] in the updater that
    [pushHistoryBatch] hands to [setHistoryMap]; [st] is [(next, changed)].
    [prev[update.id]] is read here as a lookup among the own keys, which is
    what it is for every id that is an own key or is not the name of a
    member of [Object.prototype]; [history_visit_js] below follows the read
    for every id. *)
Definition history_visit (prev : gmap string (Array number))
    (st : gmap string (Array number) * bool) (update : Patient)
    : Alloc (gmap string (Array number) * bool) :=
  let current := prev !! pid update in
  let* updatedHistory := appendHistory current (hr update) update in
  let differs := match current with
                 | Some c => negb (same_ref c updatedHistory)
                 | None => true
                 end in
  if differs then ret (<[pid update := updatedHistory]> st.1, true)
  else ret st.

Fixpoint history_forEach (prev : gmap string (Array number))
    (updates : list Patient) (st : gmap string (Array number) * bool)
    : Alloc (gmap string (Array number) * bool) :=
  match updates with
  | [] => ret st
  | update :: rest =>
      let* st' := history_visit prev st update in
      history_forEach prev rest st'
  end.

(** The updater itself: [prev => { ... return changed ? next : prev }]. *)
Definition pushHistoryBatch_updater (updates : list Patient)
    (prev : object (gmap string (Array number)))
    : Alloc (object (gmap string (Array number))) :=
  let* a := fresh in
  let* st := history_forEach (content prev) updates (content prev, false) in
  ret (if st.2 then Object a st.1 else prev).

(** *** The updater for every id

    The same code with the property read as JavaScript performs it; [None]
    stands for a thrown [TypeError]. *)

(** [appendHistory(current, ...)] on what the read gave.  An inherited
    member is neither [null] nor [undefined], so no seed is built; its
    element at [length - 1] is [undefined], so the early return is not
    taken; and it has no [slice], so [base.slice(...)] throws. *)
Definition appendHistory_js (history : PropertyRead) (nextValue : number)
    (patient : Patient) : Alloc (option (Array number)) :=
  match history with
  | ReadHistory h =>
      let* r := appendHistory (Some h) nextValue patient in ret (Some r)
  | ReadUndefined =>
      let* r := appendHistory None nextValue patient in ret (Some r)
  | ReadInherited => ret None
  end.

Definition history_visit_js (prev : gmap string (Array number))
    (st : gmap string (Array number) * bool) (update : Patient)
    : Alloc (option (gmap string (Array number) * bool)) :=
  let current := read_history prev (pid update) in
  let* r := appendHistory_js current (hr update) update in
  match r with
  | None => ret None
  | Some updatedHistory =>
      let differs := match current with
                     | ReadHistory c => negb (same_ref c updatedHistory)
                     | ReadInherited | ReadUndefined => true
                     end in
      if differs then ret (Some (<[pid update := updatedHistory]> st.1, true))
      else ret (Some st)
  end.

(** An exception leaves [forEach] at the update that raised it. *)
Fixpoint history_forEach_js (prev : gmap string (Array number))
    (updates : list Patient) (st : gmap string (Array number) * bool)
    : Alloc (option (gmap string (Array number) * bool)) :=
  match updates with
  | [] => ret (Some st)
  | update :: rest =>
      let* r := history_visit_js prev st update in
      match r with
      | None => ret None
      | Some st' => history_forEach_js prev rest st'
      end
  end.

Definition pushHistoryBatch_updater_js (updates : list Patient)
    (prev : object (gmap string (Array number)))
    : Alloc (option (object (gmap string (Array number)))) :=
  let* a := fresh in
  let* r := history_forEach_js (content prev) updates (content prev, false) in
  ret (match r with
       | Some st => Some (if st.2 then Object a st.1 else prev)
       | None => None
       end).

(** ** The component state and its socket handlers *)

Record Dashboard := {
  patients : Array Patient;
  historyMap : object (gmap string (Array number));
  isConnected : bool
}.

Definition pushHistoryBatch (updates : Array Patient) (st : Dashboard)
    : Alloc Dashboard :=
  if bool_decide (length (content updates) = 0) then ret st
  else
    let* h := pushHistoryBatch_updater (content updates) (historyMap st) in
    ret {| patients := patients st; historyMap := h;
           isConnected := isConnected st |}.

(** [socket.on('vitals_update', applyUpdates)] *)
Definition applyUpdates (updates : Array Patient) (st : Dashboard)
    : Alloc Dashboard :=
  if bool_decide (length (content updates) = 0) then ret st
  else
    let* p := applyUpdates_updater (content updates) (patients st) in
    pushHistoryBatch updates
      {| patients := p; historyMap := historyMap st;
         isConnected := isConnected st |}.

(** [socket.on('initial_patients', ...)] *)
Definition on_initial_patients (initialPatients : Array Patient)
    (st : Dashboard) : Alloc Dashboard :=
  pushHistoryBatch initialPatients
    {| patients := initialPatients; historyMap := historyMap st;
       isConnected := isConnected st |}.

(** [socket.on('connect', ...)], [socket.on('disconnect', ...)] *)
Definition on_connect (st : Dashboard) : Dashboard :=
  {| patients := patients st; historyMap := historyMap st; isConnected := true |}.
Definition on_disconnect (st : Dashboard) : Dashboard :=
  {| patients := patients st; historyMap := historyMap st; isConnected := false |}.

(** What the socket delivers, and the component run over a sequence of
    deliveries. *)
Inductive SocketEvent :=
  | Connect
  | Disconnect
  | InitialPatients (initialPatients : Array Patient)
  | VitalsUpdate (updates : Array Patient).

Definition on_event (ev : SocketEvent) (st : Dashboard) : Alloc Dashboard :=
  match ev with
  | Connect => ret (on_connect st)
  | Disconnect => ret (on_disconnect st)
  | InitialPatients initialPatients => on_initial_patients initialPatients st
  | VitalsUpdate updates => applyUpdates updates st
  end.

Fixpoint run (events : list SocketEvent) (st : Dashboard) : Alloc Dashboard :=
  match events with
  | [] => ret st
  | ev :: rest => let* st' := on_event ev st in run rest st'
  end.

(** The handlers with the history updater for every id: [None] when the
    updater throws, and then the render fails and no state is committed. *)
Definition pushHistoryBatch_js (updates : Array Patient) (st : Dashboard)
    : Alloc (option Dashboard) :=
  if bool_decide (length (content updates) = 0) then ret (Some st)
  else
    let* r := pushHistoryBatch_updater_js (content updates) (historyMap st) in
    ret (match r with
         | Some h => Some {| patients := patients st; historyMap := h;
                             isConnected := isConnected st |}
         | None => None
         end).

Definition applyUpdates_js (updates : Array Patient) (st : Dashboard)
    : Alloc (option Dashboard) :=
  if bool_decide (length (content updates) = 0) then ret (Some st)
  else
    let* p := applyUpdates_updater (content updates) (patients st) in
    pushHistoryBatch_js updates
      {| patients := p; historyMap := historyMap st;
         isConnected := isConnected st |}.

Definition on_initial_patients_js (initialPatients : Array Patient)
    (st : Dashboard) : Alloc (option Dashboard) :=
  pushHistoryBatch_js initialPatients
    {| patients := initialPatients; historyMap := historyMap st;
       isConnected := isConnected st |}.

Definition on_event_js (ev : SocketEvent) (st : Dashboard)
    : Alloc (option Dashboard) :=
  match ev with
  | Connect => ret (Some (on_connect st))
  | Disconnect => ret (Some (on_disconnect st))
  | InitialPatients initialPatients => on_initial_patients_js initialPatients st
  | VitalsUpdate updates => applyUpdates_js updates st
  end.
End History.

(** [useState([])], [useState({})], [useState(false)]: the state of a
    freshly mounted component, its two objects at addresses 0 and 1. *)
Definition initial_state : Dashboard :=
  {| patients := Object 0 []; historyMap := Object 1 ∅; isConnected := false |}.

(** ** Worker task pipeline *)

(** The message the worker posts back. *)
Record WorkerReply := { ok : bool; error : option string }.

(** How the call [simulateHeavyEncryption()] ends inside the worker: it
    returns, or it throws; what [crypto.pbkdf2Sync] throws is an [Error]
    object, which carries a message. *)
Inductive Completion := Returns | Throws (message : string).

(** Code running in the worker thread has two effects: it posts messages
    to the parent, and it ends normally or with an exception (an [Error]
    object, kept by its message).  A message posted before an exception
    stays posted. *)
Record Worker (A : Type) := Ran { posted : list WorkerReply; ended : string + A }.
Arguments Ran {A} posted ended.
Arguments posted {A} w.
Arguments ended {A} w.

Definition w_ret {A} (a : A) : Worker A := Ran [] (inr a).

(** [throw new Error(message)] *)
Definition w_throw {A} (message : string) : Worker A := Ran [] (inl message).

(** [c; k] *)
Definition w_bind {A B} (c : Worker A) (k : A → Worker B) : Worker B :=
  match ended c with
  | inl e => Ran (posted c) (inl e)
  | inr a => Ran (posted c ++ posted (k a)) (ended (k a))
  end.

(** [try { body } catch (err) { handler }], [handler] reading [err.message]. *)
Definition w_try_catch {A} (body : Worker A) (handler : string → Worker A)
    : Worker A :=
  match ended body with
  | inl e => Ran (posted body ++ posted (handler e)) (ended (handler e))
  | inr _ => body
  end.

(** [parentPort.postMessage(msg)] *)
Definition postMessage (msg : WorkerReply) : Worker unit := Ran [msg] (inr tt).

(** [simulateHeavyEncryption()]: one bounded call of [crypto.pbkdf2Sync],
    which ends as [run] says. *)
Definition simulateHeavyEncryption (run : Completion) : Worker unit :=
  match run with
  | Returns => w_ret tt
  | Throws message => w_throw message
  end.

(** Top level of [encryptWorker.ts]: the guard on [parentPort], which is
    present exactly when the file runs as a worker thread. *)
Definition encryptWorker_main (parentPort : bool) : Worker unit :=
  if negb parentPort
  then w_throw "encryptWorker must be run as a worker thread"
  else w_ret tt.

(** [parentPort.on('message', ...)] of the worker, run on one received
    payload, which it does not look at. *)
Definition worker_on_message {P : Type} (_vitals : P) (run : Completion)
    : Worker unit :=
  w_try_catch
    (w_bind (simulateHeavyEncryption run)
            (λ _, postMessage {| ok := true; error := None |}))
    (λ message, postMessage {| ok := false; error := Some message |}).

(** What the parent observes of a worker. *)
Inductive WorkerEvent :=
  | OnMessage (msg : WorkerReply)
  | OnError (err : string)
  | OnExit (code : Z).

(** The reason a promise is rejected with. *)
Inductive Rejection :=
  | ErrorMessage (message : string)      (* [new Error(message)] *)
  | WorkerError (err : string)           (* the worker's own error *)
  | ExitedWithCode (code : Z)            (* [Worker exited with code N] *)
  | Thrown (err : string).               (* an exception of the executor *)

Inductive PromiseState := Pending | Resolved | Rejected (reason : Rejection).

(** The promise of [runEncryptionInWorker] and whether its [once] listeners
    are still attached. *)
Record Caller := { promise : PromiseState; listening : bool }.

(** A promise settles once: later [resolve]/[reject] calls do nothing. *)
Definition settle (p : PromiseState) (outcome : PromiseState) : PromiseState :=
  match p with Pending => outcome | _ => p end.

(** [msg?.error || 'Worker failed']: an absent or empty string is falsy. *)
Definition error_or_default (e : option string) : string :=
  match e with
  | Some s => if bool_decide (s = EmptyString) then "Worker failed"%string else s
  | None => "Worker failed"%string
  end.

(** One event reaching the listeners that [runEncryptionInWorker] attached;
    each of them first runs [cleanup], which detaches all three. *)
Definition caller_step (c : Caller) (ev : WorkerEvent) : Caller :=
  if listening c then
    match ev with
    | OnMessage msg =>
        {| promise := settle (promise c)
                        (if ok msg then Resolved
                         else Rejected (ErrorMessage (error_or_default (error msg))));
           listening := false |}
    | OnError err =>
        {| promise := settle (promise c) (Rejected (WorkerError err));
           listening := false |}
    | OnExit code =>
        {| promise := if bool_decide (code ≠ 0%Z)
                      then settle (promise c) (Rejected (ExitedWithCode code))
                      else promise c;
           listening := false |}
    end
  else c.

(** Whether [new Worker(workerPath, ...)] gets the script running: loading
    the file or [ts-node/register] can fail. *)
Inductive WorkerStart := Loads | FailsToLoad (err : string).

(** What the parent's [Worker] object emits for code that ran in the thread:
    a ['message'] event per posted message; for an uncaught exception an
    ['error'] event and then ['exit'] with code 1. *)
Definition emitted {A} (w : Worker A) : list WorkerEvent :=
  (OnMessage <$> posted w)
  ++ match ended w with
     | inl e => [OnError e; OnExit 1]
     | inr _ => []
     end.

(** The listener serving the payloads that arrive; an uncaught exception
    ends the thread.  The listener keeps the thread alive otherwise: it
    does not exit on its own. *)
Fixpoint worker_serve {P : Type} (inbox : list P) (run : Completion)
    : list WorkerEvent :=
  match inbox with
  | [] => []
  | vitals :: rest =>
      let w := worker_on_message vitals run in
      match ended w with
      | inl _ => emitted w
      | inr _ => emitted w ++ worker_serve rest run
      end
  end.

(** Everything the parent sees of the worker thread. *)
Definition worker_thread {P : Type} (start : WorkerStart) (inbox : list P)
    (run : Completion) : list WorkerEvent :=
  match start with
  | FailsToLoad err => [OnError err; OnExit 1]
  | Loads =>
      let main := encryptWorker_main true in
      match ended main with
      | inl _ => emitted main
      | inr _ => worker_serve inbox run
      end
  end.

(** How [worker.postMessage(vitals)] ends in the caller: the payload is
    copied for the worker, or the copy fails and the call throws a
    [DataCloneError] (a payload holding a function, say). *)
Inductive Posting := Cloned | NotCloneable (err : string).

(** The payloads that reach the worker. *)
Definition worker_inbox {P : Type} (posting : Posting) (vitals : P) : list P :=
  match posting with
  | Cloned => [vitals]
  | NotCloneable _ => []
  end.

(** The promise's executor: the listeners are attached and the payload is
    posted; an exception of the executor rejects the promise and leaves the
    listeners attached. *)
Definition executor (posting : Posting) : Caller :=
  match posting with
  | Cloned => {| promise := Pending; listening := true |}
  | NotCloneable err => {| promise := Rejected (Thrown err); listening := true |}
  end.

(** [runEncryptionInWorker(vitals)]: a new worker is created, the executor
    runs, and the promise follows the events the worker emits. *)
Definition runEncryptionInWorker {P : Type} (start : WorkerStart)
    (posting : Posting) (vitals : P) (run : Completion) : Caller :=
  foldl caller_step (executor posting)
        (worker_thread start (worker_inbox posting vitals) run).

(** ** Presentation: status classes, cards and rows *)

(** The [switch] compares the vital's name with each label in turn; [a > b]
    on numbers is [b < a], false whenever an operand is [NaN]. *)
Definition getVitalStatus (vital : string) (value : number) : string :=
  if decide (vital = "heartRate"%string) then
    if PrimFloat.ltb value 60 || PrimFloat.ltb 100 value
    then "text-red-600"%string else "text-gray-800"%string
  else if decide (vital = "oxygenSaturation"%string) then
    if PrimFloat.ltb value 95
    then "text-red-600"%string else "text-gray-800"%string
  else if decide (vital = "bloodPressure"%string) then
    let systolic := value in
    if PrimFloat.ltb systolic 90 || PrimFloat.ltb 140 systolic
    then "text-red-600"%string else "text-gray-800"%string
  else if decide (vital = "temperature"%string) then
    if PrimFloat.ltb value 36.5 || PrimFloat.ltb 37.5 value
    then "text-yellow-600"%string
    else if PrimFloat.ltb 38 value then "text-red-600"%string
    else "text-gray-800"%string
  else "text-gray-800"%string.

(** [isCritical] of [PatientCard]. *)
Definition isCritical (patient : Patient) : bool :=
  PrimFloat.ltb (oxygenSaturation (content patient)) 95
  || PrimFloat.ltb 100 (hr patient)
  || PrimFloat.ltb (hr patient) 60.

(** The props of [PatientCard] that its [memo] comparator looks at. *)
Record CardProps := { card_patient : Patient; card_history : Array number }.

(** Second argument of [memo] for [PatientCard]: [true] skips the render. *)
Definition PatientCard_propsAreEqual (prev next : CardProps) : bool :=
  same_ref (card_patient prev) (card_patient next)
  && same_ref (card_history prev) (card_history next).

(** What [PatientRow] renders: an empty [div], or a [PatientCard]. *)
Inductive RowOutput := EmptyRow | CardRow (props : CardProps).

(** [PatientRow]: [patients[index]] is [undefined] out of range;
    [historyMap[patient.id] ?? []] makes a new empty array when the id has
    no history.  The read is a lookup among the own keys: in the states the
    component reaches every entity's id is one, since a batch whose read
    finds an inherited member throws and commits nothing. *)
Definition PatientRow (index : nat) (patients : Array Patient)
    (historyMap : object (gmap string (Array number))) : Alloc RowOutput :=
  match content patients !! index with
  | None => ret EmptyRow
  | Some patient =>
      let* history := match content historyMap !! pid patient with
                      | Some h => ret h
                      | None => alloc []
                      end in
      ret (CardRow {| card_patient := patient; card_history := history |})
  end.

(** ** Notions the properties are stated with *)

(** The distinct elements of a list, each at the place of its first
    occurrence. *)
Fixpoint first_occurrences (l : list string) : list string :=
  match l with
  | [] => []
  | x :: l' => x :: filter (λ y, y ≠ x) (first_occurrences l')
  end.

Definition ids (l : list Patient) : list string := pid <$> l.

(** The update a batch holds for an id: the last one carrying it. *)
Definition effective_update (k : string) (updates : list Patient) : option Patient :=
  last (filter (λ u, pid u = k) updates).

(** Closed forms of the first loop, shown equal to it in [walk_spec]:
    what it pushes for [patient] while the lookup is [m], *)
Definition placed (m : JsMap Patient) (patient : Patient) : Patient :=
  match Map_get (pid patient) m with
  | Some updated => if arePatientsEqual patient updated then patient else updated
  | None => patient
  end.

(** whether it sets [changed] at [patient], *)
Definition replaces (m : JsMap Patient) (patient : Patient) : bool :=
  match Map_get (pid patient) m with
  | Some updated => negb (arePatientsEqual patient updated)
  | None => false
  end.

(** and the list it builds and the flag it leaves, as functions of the
    lookup it starts from. *)
Fixpoint walk_kept (m : JsMap Patient) (prev : list Patient) : list Patient :=
  match prev with
  | [] => []
  | p :: prev' => placed m p :: walk_kept (filter (λ e, e.1 ≠ pid p) m) prev'
  end.

Fixpoint walk_changed (m : JsMap Patient) (prev : list Patient) : bool :=
  match prev with
  | [] => false
  | p :: prev' => replaces m p || walk_changed (filter (λ e, e.1 ≠ pid p) m) prev'
  end.

(** The lookup built from a batch, and what is left of it after the walk. *)
Definition batch_map (updates : list Patient) : JsMap Patient :=
  Map_new ((λ update, (pid update, update)) <$> updates).

Definition leftover (updates prev : list Patient) : JsMap Patient :=
  filter (λ e, e.1 ∉ ids prev) (batch_map updates).

(** The seven measurements of two records agree under [===]. *)
Definition numeric_fields_equal (a b : PatientVitals) : Prop :=
  strict_eq (heartRate a) (heartRate b) = true ∧
  strict_eq (bloodPressureSystolic a) (bloodPressureSystolic b) = true ∧
  strict_eq (bloodPressureDiastolic a) (bloodPressureDiastolic b) = true ∧
  strict_eq (oxygenSaturation a) (oxygenSaturation b) = true ∧
  strict_eq (respiratoryRate a) (respiratoryRate b) = true ∧
  strict_eq (temperature a) (temperature b) = true ∧
  strict_eq (timestamp a) (timestamp b) = true.

(** Every field of two records agrees: the id as well. *)
Definition every_field_equal (a b : PatientVitals) : Prop :=
  id a = id b ∧ numeric_fields_equal a b.

(** Every history of the map was allocated before address [n]. *)
Definition heap_below (n : loc) (m : gmap string (Array number)) : Prop :=
  ∀ k h, m !! k = Some h → addr h < n.

(** Every history of the map holds exactly [HISTORY_LENGTH] samples. *)
Definition histories_full (m : gmap string (Array number)) : Prop :=
  ∀ k h, m !! k = Some h → length (content h) = HISTORY_LENGTH.

(** The update whose sample a batch leaves in the history of [k], given the
    history [current] that [k] had before the batch: with a history, the
    last update for [k] whose heart rate is not already its last sample;
    without one, the last update for [k]. *)
Definition recorded_update (current : option (Array number)) (k : string)
    (updates : list Patient) : option Patient :=
  match current with
  | Some h =>
      last (filter (λ u, pid u = k ∧ last_is (hr u) (content h) = false) updates)
  | None => effective_update k updates
  end.

(** No update of the batch makes [prev[update.id]] read an inherited
    member: its id is an own key of the map or is not the name of a member
    of [Object.prototype]. *)
Definition no_inherited_read (prev : gmap string (Array number))
    (updates : list Patient) : Prop :=
  ∀ u, u ∈ updates → read_history prev (pid u) ≠ ReadInherited.

(** No id of the batch is the name of a member of [Object.prototype]. *)
Definition plain_ids (updates : list Patient) : Prop :=
  ∀ u, u ∈ updates → pid u ∉ Object_prototype_members.

(** A stream of values with every value dropped that is [===] to the one
    kept before it; [x] is the value kept last before the stream. *)
Fixpoint compress (x : number) (vs : list number) : list number :=
  match vs with
  | [] => []
  | v :: vs' => if strict_eq x v then compress x vs' else v :: compress v vs'
  end.

Section Drivers.
Context (Math_sin Math_round : number → number).

(** [appendHistory] called once per value of a stream, each call on the
    history the call before returned. *)
Fixpoint appendHistory_stream (h : Array number) (vs : list number)
    (patient : Patient) : Alloc (Array number) :=
  match vs with
  | [] => ret h
  | v :: vs' =>
      let* h' := appendHistory Math_sin Math_round (Some h) v patient in
      appendHistory_stream h' vs' patient
  end.
End Drivers.

(** Every entity of the collection has a history in the map. *)
Definition covered (st : Dashboard) : Prop :=
  ∀ p, p ∈ content (patients st) →
       is_Some (content (historyMap st) !! pid p).

(** The events that carry entities. *)
Definition is_data_event (ev : SocketEvent) : bool :=
  match ev with
  | InitialPatients _ | VitalsUpdate _ => true
  | Connect | Disconnect => false
  end.

(** The entities an event carries. *)
Definition event_entities (ev : SocketEvent) : list Patient :=
  match ev with
  | InitialPatients initialPatients => content initialPatients
  | VitalsUpdate updates => content updates
  | Connect | Disconnect => []
  end.

(** An initial snapshot lists every id once. *)
Definition snapshot_ids_distinct (ev : SocketEvent) : Prop :=
  match ev with
  | InitialPatients initialPatients => NoDup (ids (content initialPatients))
  | _ => True
  end.

(** No measurement of the record is [NaN]: the record passes
    [arePatientsEqual] against itself. *)
Definition self_equal (u : Patient) : Prop := arePatientsEqual u u = true.

(** Whether an update makes [pushHistoryBatch] write a history: its id has
    none yet, or its heart rate is not [===] to the last sample stored. *)
Definition refreshes (prev : gmap string (Array number)) (update : Patient) : bool :=
  match prev !! pid update with
  | Some h => negb (last_is (hr update) (content h))
  | None => true
  end.

(** ** Sample records for the worked examples *)

Definition vitals (i : string) (h t : number) : PatientVitals :=
  {| id := i; heartRate := h;
     bloodPressureSystolic := 120; bloodPressureDiastolic := 80;
     oxygenSaturation := 98; respiratoryRate := 16;
     temperature := 37; timestamp := t |}.

(** A stored collection [[A, B]] at address 2, its two records at 0 and 1. *)
Definition sample_A : Patient := Object 0 (vitals "a" 72 1000).
Definition sample_B : Patient := Object 1 (vitals "b" 64 1000).
Definition sample_prev : Array Patient := Object 2 [sample_A; sample_B].

(** Freshly received records: [B'] changes [B], [A'] repeats [A] value for
    value, [C] is new. *)
Definition sample_B' : Patient := Object 3 (vitals "b" 65 2000).
Definition sample_A' : Patient := Object 4 (vitals "a" 72 1000).
Definition sample_C : Patient := Object 5 (vitals "c" 90 2000).

(** The measurements of [A] under another id. *)
Definition sample_Z : Patient := Object 8 (vitals "z" 72 1000).

(** Two updates for the same id in one batch. *)
Definition sample_x70 : Patient := Object 6 (vitals "x" 70 3000).
Definition sample_x80 : Patient := Object 7 (vitals "x" 80 3000).

(** A full history ending in 60, a one-sample history, and a history map
    holding the full one for [x]. *)
Definition sample_history : Array number :=
  Object 9 (replicate 19 62%float ++ [60%float]).
Definition sample_short : Array number := Object 10 [60%float].
Definition sample_histories : object (gmap string (Array number)) :=
  Object 11 {[ "x"%string := sample_history ]}.
Definition sample_x60 : Patient := Object 12 (vitals "x" 60 3000).

(** A component state holding the sample collection and history map. *)
Definition sample_state : Dashboard :=
  {| patients := sample_prev; historyMap := sample_histories;
     isConnected := true |}.

(** A state whose collection holds [A] and the patient [x], with the full
    history for [x]; a batch repeating [x] value for value in a new object;
    and a sequence of events: a snapshot, then a batch that names [c] twice. *)
Definition sample_ward : Dashboard :=
  {| patients := Object 14 [sample_A; sample_x60];
     historyMap := sample_histories; isConnected := true |}.
Definition sample_x60_again : Patient := Object 15 (vitals "x" 60 3000).
Definition sample_repeat : Array Patient := Object 16 [sample_x60_again].
Definition sample_events : list SocketEvent :=
  [Connect; InitialPatients sample_prev; Disconnect;
   VitalsUpdate (Object 17 [sample_C; sample_B'; sample_C])].
Definition sample_batch : Array Patient := Object 18 [sample_C; sample_B'].

(** A record with a racing heart. *)
Definition sample_tachy : Patient := Object 19 (vitals "t" 120 1000).

(** A record with a normal heart rate and oxygen saturation but a fever. *)
Definition sample_fever : Patient :=
  Object 13 {| id := "f"; heartRate := 72;
               bloodPressureSystolic := 120; bloodPressureDiastolic := 80;
               oxygenSaturation := 98; respiratoryRate := 16;
               temperature := 39.5; timestamp := 1000 |}.

(** An entity whose id names a member of [Object.prototype]. *)
Definition sample_toString : Patient := Object 20 (vitals "toString" 72 9000).

(** Stand-ins for [Math.sin] and [Math.round] where an example has to run
    the seed: a flat wave and no rounding. *)
Definition flat_wave (x : number) : number := 0%float.
Definition no_rounding (x : number) : number := x.

(** * Properties *)

(** ** Lists: first occurrences *)

Lemma filter_all {A} (P : A → Prop) `{!∀ x, Decision (P x)} (l : list A) :
  (∀ x, x ∈ l → P x) → filter P l = l.
Proof.
  induction l as [|x l IH]; intros HP; [done|].
  rewrite filter_cons_True by (apply HP; left).
  f_equal. apply IH. intros y Hy. apply HP. by right.
Qed.

Lemma first_occurrences_filter (P : string → Prop) `{!∀ x, Decision (P x)} l :
  first_occurrences (filter P l) = filter P (first_occurrences l).
Proof.
  induction l as [|x l IH]; [done|].
  rewrite filter_cons. destruct (decide (P x)) as [HP|HP]; simpl.
  - rewrite filter_cons, decide_True by done. f_equal.
    rewrite IH. rewrite !list_filter_filter. apply list_filter_iff. tauto.
  - rewrite filter_cons, decide_False by done. rewrite IH.
    rewrite list_filter_filter. apply list_filter_iff.
    intros y. split; [|tauto]. intros Hy. split; [done|]. by intros ->.
Qed.

Lemma elem_of_first_occurrences x l : x ∈ first_occurrences l ↔ x ∈ l.
Proof.
  induction l as [|y l IH]; simpl; [done|].
  rewrite !elem_of_cons, list_elem_of_filter, IH.
  destruct (decide (x = y)); naive_solver.
Qed.

Lemma NoDup_first_occurrences l : NoDup (first_occurrences l).
Proof.
  induction l as [|y l IH]; simpl; [constructor|].
  constructor.
  - rewrite list_elem_of_filter. naive_solver.
  - by apply NoDup_filter.
Qed.

Lemma first_occurrences_NoDup l : NoDup l → first_occurrences l = l.
Proof.
  induction 1 as [|x l Hx _ IH]; simpl; [done|]. f_equal. rewrite IH.
  apply filter_all. by intros y Hy ->.
Qed.

(** ** [Map] *)

Section JsMap_facts.
Context {V : Type}.
Implicit Types (m : JsMap V) (k : string) (v : V).

Lemma Map_get_set k k' v m :
  Map_get k' (Map_set k v m) = if decide (k = k') then Some v else Map_get k' m.
Proof.
  induction m as [|[k0 v0] m IH]; csimpl.
  - repeat case_decide; naive_solver.
  - destruct (decide (k0 = k)) as [->|Hne]; csimpl.
    + repeat case_decide; naive_solver.
    + rewrite IH. repeat case_decide; naive_solver.
Qed.

Lemma Map_keys_set k v m :
  Map_keys (Map_set k v m) =
  if decide (k ∈ Map_keys m) then Map_keys m else Map_keys m ++ [k].
Proof.
  unfold Map_keys. induction m as [|[k0 v0] m IH]; csimpl; [done|].
  destruct (decide (k0 = k)) as [->|Hne]; csimpl.
  - rewrite decide_True; [done | left].
  - rewrite IH. destruct (decide (k ∈ m.*1)) as [Hin|Hin].
    + rewrite decide_True; [done | by right].
    + rewrite decide_False; [done|]. rewrite elem_of_cons. naive_solver.
Qed.

Lemma Map_get_None k m : Map_get k m = None ↔ k ∉ Map_keys m.
Proof.
  unfold Map_keys. induction m as [|[k0 v0] m IH]; csimpl.
  - split; [intros _; apply not_elem_of_nil | done].
  - rewrite not_elem_of_cons. case_decide; naive_solver.
Qed.

Lemma Map_get_Some k v m : Map_get k m = Some v → (k, v) ∈ m.
Proof.
  induction m as [|[k0 v0] m IH]; csimpl; [done|].
  case_decide; intros; simplify_eq; [left | right; auto].
Qed.

Lemma Map_get_elem_of k v m : NoDup (Map_keys m) → (k, v) ∈ m → Map_get k m = Some v.
Proof.
  unfold Map_keys. induction m as [|[k0 v0] m IH]; csimpl.
  - by intros _ ?%elem_of_nil.
  - intros [Hk0 Hnd]%NoDup_cons [?|Hin]%elem_of_cons; simplify_eq.
    + by rewrite decide_True.
    + rewrite decide_False; [auto|]. intros ->. apply Hk0.
      apply list_elem_of_fmap. by exists (k, v).
Qed.

Lemma Map_delete_filter k m :
  NoDup (Map_keys m) → Map_delete k m = filter (λ e, e.1 ≠ k) m.
Proof.
  unfold Map_keys. induction m as [|[k0 v0] m IH]; csimpl; [done|].
  intros [Hk0 Hnd]%NoDup_cons. rewrite filter_cons. simpl.
  destruct (decide (k0 = k)) as [->|Hne].
  - rewrite decide_False by naive_solver.
    symmetry. apply filter_all.
    intros [k1 v1] Hin Heq. simpl in Heq. subst k1. apply Hk0.
    apply list_elem_of_fmap. by exists (k, v1).
  - rewrite decide_True by done. f_equal. auto.
Qed.

Lemma Map_keys_filter (P : string * V → Prop) (Q : string → Prop)
    `{!∀ e, Decision (P e), !∀ k, Decision (Q k)} m :
  (∀ e, P e ↔ Q e.1) →
  Map_keys (filter P m) = filter Q (Map_keys m).
Proof.
  intros HPQ. unfold Map_keys. induction m as [|[k0 v0] m IH]; csimpl; [done|].
  rewrite !filter_cons. specialize (HPQ (k0, v0)). simpl in HPQ.
  repeat case_decide; csimpl; rewrite ?IH; naive_solver.
Qed.

Lemma Map_get_filter (P : string * V → Prop) (Q : string → Prop)
    `{!∀ e, Decision (P e), !∀ k, Decision (Q k)} k m :
  (∀ e, P e ↔ Q e.1) →
  Map_get k (filter P m) = if decide (Q k) then Map_get k m else None.
Proof.
  intros HPQ. induction m as [|[k0 v0] m IH]; csimpl; [by case_decide|].
  rewrite filter_cons. specialize (HPQ (k0, v0)). simpl in HPQ.
  destruct (decide (P (k0, v0))) as [HP0|HP0]; csimpl; rewrite IH;
    repeat case_decide; naive_solver.
Qed.

(** Building a map from a batch of entries, started from any map. *)
Lemma Map_fold_keys entries m :
  Map_keys (foldl (λ m e, Map_set e.1 e.2 m) m entries) =
  Map_keys m ++ first_occurrences (filter (λ k, k ∉ Map_keys m) entries.*1).
Proof.
  revert m. induction entries as [|[k v] entries IH]; intros m; simpl.
  - by rewrite app_nil_r.
  - rewrite IH, Map_keys_set, filter_cons.
    destruct (decide (k ∈ Map_keys m)) as [Hin|Hin].
    + by rewrite decide_False by naive_solver.
    + rewrite decide_True by done. simpl. rewrite <-app_assoc. simpl.
      do 2 f_equal. rewrite <-first_occurrences_filter, list_filter_filter.
      f_equal. apply list_filter_iff. intros y.
      rewrite elem_of_app, list_elem_of_singleton. naive_solver.
Qed.

Lemma Map_fold_get entries m k :
  Map_get k (foldl (λ m e, Map_set e.1 e.2 m) m entries) =
  match last (filter (λ e, e.1 = k) entries) with
  | Some e => Some e.2
  | None => Map_get k m
  end.
Proof.
  revert m. induction entries as [|[k0 v0] entries IH]; intros m; simpl; [done|].
  rewrite IH, filter_cons. simpl.
  destruct (decide (k0 = k)) as [->|Hne].
  - destruct (filter _ entries) as [|e es] eqn:Hf.
    + simpl. by rewrite Map_get_set, decide_True.
    + rewrite last_cons_cons.
      destruct (last (e :: es)) eqn:Hl; [done|]. by apply last_None in Hl.
  - destruct (last _); [done|]. by rewrite Map_get_set, decide_False.
Qed.

Lemma Map_new_keys (entries : list (string * V)) : Map_keys (Map_new entries) = first_occurrences entries.*1.
Proof.
  unfold Map_new. rewrite Map_fold_keys. simpl. f_equal.
  apply filter_all. intros x _. apply not_elem_of_nil.
Qed.

Lemma Map_new_NoDup (entries : list (string * V)) : NoDup (Map_keys (Map_new entries)).
Proof. rewrite Map_new_keys. apply NoDup_first_occurrences. Qed.

Lemma Map_new_get (entries : list (string * V)) k :
  Map_get k (Map_new entries) = snd <$> last (filter (λ e, e.1 = k) entries).
Proof. unfold Map_new. rewrite Map_fold_get. by destruct (last _). Qed.
End JsMap_facts.

(** ** The reconciler's two loops *)

Lemma filter_fmap {A B} (f : A → B) (P : B → Prop) `{!∀ x, Decision (P x)} (l : list A) :
  filter P (f <$> l) = f <$> filter (λ x, P (f x)) l.
Proof.
  induction l as [|x l IH]; [done|]. csimpl.
  rewrite !filter_cons. case_decide; csimpl; by rewrite IH.
Qed.

Lemma merge_visit_spec st p :
  NoDup (Map_keys (updateMap st)) →
  merge_visit st p =
  {| updateMap := filter (λ e, e.1 ≠ pid p) (updateMap st);
     nextPatients := nextPatients st ++ [placed (updateMap st) p];
     changed := changed st || replaces (updateMap st) p |}.
Proof.
  intros Hnd. unfold merge_visit, placed, replaces.
  destruct (Map_get (pid p) (updateMap st)) as [u|] eqn:Hget.
  - rewrite Map_delete_filter by done.
    destruct (arePatientsEqual p u); simpl; f_equal;
      by rewrite ?orb_true_r, ?orb_false_r.
  - f_equal.
    + symmetry. apply filter_all. intros [k v] Hin Heq. simpl in Heq. subst k.
      apply Map_get_None in Hget. apply Hget.
      apply list_elem_of_fmap. by exists (pid p, v).
    + by rewrite orb_false_r.
Qed.

Lemma NoDup_keys_filter {V} (P : string * V → Prop) `{!∀ x, Decision (P x)} (m : JsMap V) :
  NoDup (Map_keys m) → NoDup (Map_keys (filter P m)).
Proof.
  unfold Map_keys. induction m as [|[k v] m IH]; csimpl; [done|].
  intros [Hk Hnd]%NoDup_cons. rewrite filter_cons.
  case_decide; csimpl; [|by auto]. constructor; [|by auto].
  intros ([k' v']&?&[_ Hin]%list_elem_of_filter)%list_elem_of_fmap.
  simplify_eq/=. apply Hk, list_elem_of_fmap. by exists (k', v').
Qed.

(** Invariant of [prevPatients.forEach]. *)
Lemma walk_spec prev st :
  NoDup (Map_keys (updateMap st)) →
  foldl merge_visit st prev =
  {| updateMap := filter (λ e, e.1 ∉ ids prev) (updateMap st);
     nextPatients := nextPatients st ++ walk_kept (updateMap st) prev;
     changed := changed st || walk_changed (updateMap st) prev |}.
Proof.
  revert st. induction prev as [|p prev IH]; intros st Hnd; simpl.
  - rewrite app_nil_r, orb_false_r. destruct st as [m nx ch]; simpl. f_equal.
    symmetry. apply filter_all. intros x _. apply not_elem_of_nil.
  - rewrite merge_visit_spec by done.
    rewrite IH by (simpl; by apply NoDup_keys_filter).
    simpl. f_equal.
    + rewrite list_filter_filter. apply list_filter_iff. intros [k v]. simpl.
      unfold ids. rewrite not_elem_of_cons. tauto.
    + by rewrite <-app_assoc.
    + by rewrite orb_assoc.
Qed.

(** Invariant of [updateMap.forEach]. *)
Lemma append_spec (rest : JsMap Patient) st :
  foldl merge_append st rest =
  {| updateMap := updateMap st;
     nextPatients := nextPatients st ++ rest.*2;
     changed := changed st || bool_decide (rest ≠ []) |}.
Proof.
  revert st. induction rest as [|e rest IH]; intros st; csimpl.
  - rewrite app_nil_r, orb_false_r. by destruct st.
  - rewrite IH. simpl. f_equal.
    + by rewrite <-app_assoc.
    + by rewrite orb_true_r.
Qed.

Lemma merge_loops_spec updates prev :
  merge_loops updates prev =
  {| updateMap := leftover updates prev;
     nextPatients := walk_kept (batch_map updates) prev ++ (leftover updates prev).*2;
     changed := walk_changed (batch_map updates) prev
                || bool_decide (leftover updates prev ≠ []) |}.
Proof.
  unfold merge_loops. rewrite walk_spec by apply Map_new_NoDup.
  simpl. by rewrite append_spec.
Qed.

Lemma batch_map_get updates k :
  Map_get k (batch_map updates) = effective_update k updates.
Proof.
  unfold batch_map, effective_update. rewrite Map_new_get.
  rewrite (filter_fmap _ (λ e, e.1 = k)), fmap_last. simpl.
  by destruct (last _).
Qed.

Lemma batch_map_keys updates :
  Map_keys (batch_map updates) = first_occurrences (ids updates).
Proof.
  unfold batch_map. rewrite Map_new_keys. by rewrite <-list_fmap_compose.
Qed.

Lemma effective_update_pid k updates u :
  effective_update k updates = Some u → pid u = k ∧ u ∈ updates.
Proof.
  unfold effective_update. intros Hl%last_Some_elem_of.
  by apply list_elem_of_filter in Hl.
Qed.

Lemma batch_map_entry updates k v :
  (k, v) ∈ batch_map updates → effective_update k updates = Some v.
Proof.
  intros Hin. rewrite <-batch_map_get.
  apply Map_get_elem_of; [apply Map_new_NoDup | done].
Qed.

Lemma leftover_ids updates prev :
  ids (leftover updates prev).*2 =
  first_occurrences (filter (λ k, k ∉ ids prev) (ids updates)).
Proof.
  rewrite first_occurrences_filter, <-batch_map_keys.
  unfold leftover. rewrite <-(Map_keys_filter (λ e, e.1 ∉ ids prev) (λ k, k ∉ ids prev)) by done.
  unfold ids, Map_keys. rewrite <-list_fmap_compose.
  apply list_fmap_ext. intros i [k v] Hi. simpl.
  apply list_elem_of_lookup_2, list_elem_of_filter in Hi as [_ Hin].
  by apply batch_map_entry, effective_update_pid in Hin as [? _].
Qed.

Lemma walk_kept_length m prev : length (walk_kept m prev) = length prev.
Proof. revert m. induction prev; intros m; simpl; auto. Qed.

Lemma walk_kept_lookup m prev i p :
  prev !! i = Some p →
  walk_kept m prev !! i =
  Some (if decide (pid p ∈ ids (take i prev)) then p else placed m p).
Proof.
  revert m i. induction prev as [|p0 prev IH]; intros m i Hi; [done|].
  destruct i as [|i]; simpl in *.
  - by simplify_eq.
  - rewrite (IH _ _ Hi). f_equal. unfold ids.
    destruct (decide (pid p = pid p0)) as [Heq|Hne].
    + rewrite (decide_True (P := pid p ∈ _ :: _)) by (rewrite Heq; left).
      case_decide; [done|]. unfold placed.
      rewrite (Map_get_filter _ (λ k, k ≠ pid p0)) by done.
      rewrite decide_False; [done | naive_solver].
    + unfold placed.
      rewrite (Map_get_filter _ (λ k, k ≠ pid p0)) by done.
      rewrite (decide_True (P := pid p ≠ pid p0)) by done.
      repeat case_decide; try done; rewrite elem_of_cons in *; naive_solver.
Qed.

Lemma walk_unchanged m prev : walk_changed m prev = false → walk_kept m prev = prev.
Proof.
  revert m. induction prev as [|p prev IH]; intros m; simpl; [done|].
  intros [Hp Hrest]%orb_false_iff. f_equal; [|by apply IH].
  unfold replaces, placed in *. destruct (Map_get _ _); [|done].
  by apply negb_false_iff in Hp as ->.
Qed.

Lemma walk_changed_false m prev :
  (∀ p u, p ∈ prev → Map_get (pid p) m = Some u → arePatientsEqual p u = true) →
  walk_changed m prev = false.
Proof.
  revert m. induction prev as [|p prev IH]; intros m Hall; simpl; [done|].
  apply orb_false_iff. split.
  - unfold replaces. destruct (Map_get _ _) as [u|] eqn:Hget; [|done].
    rewrite (Hall p u); [done | left | done].
  - apply IH. intros q u Hq. rewrite (Map_get_filter _ (λ k, k ≠ pid p)) by done.
    case_decide; [|done]. apply Hall. by right.
Qed.

(** The items of the collection the updater returns, in both branches of
    its final conditional. *)
Lemma merged_content updates prevPatients n :
  content (applyUpdates_updater updates prevPatients n).1 =
  walk_kept (batch_map updates) (content prevPatients)
    ++ (leftover updates (content prevPatients)).*2.
Proof.
  unfold applyUpdates_updater, bind, fresh, ret. simpl.
  rewrite merge_loops_spec. simpl.
  destruct (walk_changed _ _) eqn:Hw; simpl; [done|].
  case_bool_decide as Hl; simpl; [done|].
  rewrite Hl. simpl.
  by rewrite app_nil_r, walk_unchanged.
Qed.

(** ** Reconciler: what the returned collection holds *)

Lemma filter_none {A} (P : A → Prop) `{!∀ x, Decision (P x)} (l : list A) :
  (∀ x, x ∈ l → ¬ P x) → filter P l = [].
Proof.
  induction l as [|x l IH]; intros HP; [done|].
  rewrite filter_cons_False by (apply HP; left).
  apply IH. intros y Hy. apply HP. by right.
Qed.

Lemma merged_kept_lookup updates prevPatients n i p :
  content prevPatients !! i = Some p →
  content (applyUpdates_updater updates prevPatients n).1 !! i =
  Some (if decide (pid p ∈ ids (take i (content prevPatients))) then p
        else match effective_update (pid p) updates with
             | Some u => if arePatientsEqual p u then p else u
             | None => p
             end).
Proof.
  intros Hi. rewrite merged_content, lookup_app_l.
  - rewrite (walk_kept_lookup _ _ _ _ Hi). unfold placed.
    by rewrite batch_map_get.
  - rewrite walk_kept_length. by eapply lookup_lt_Some.
Qed.

Lemma merged_take updates prevPatients n :
  take (length (content prevPatients))
       (content (applyUpdates_updater updates prevPatients n).1) =
  walk_kept (batch_map updates) (content prevPatients).
Proof.
  rewrite merged_content. apply take_app_length'. by rewrite walk_kept_length.
Qed.

Lemma merged_drop updates prevPatients n :
  drop (length (content prevPatients))
       (content (applyUpdates_updater updates prevPatients n).1) =
  (leftover updates (content prevPatients)).*2.
Proof.
  rewrite merged_content. apply drop_app_length'. by rewrite walk_kept_length.
Qed.

Lemma leftover_elem updates prev e :
  e ∈ (leftover updates prev).*2 →
  effective_update (pid e) updates = Some e ∧ pid e ∉ ids prev.
Proof.
  intros ([k v]&->&[Hk Hin]%list_elem_of_filter)%list_elem_of_fmap. simpl in *.
  apply batch_map_entry in Hin. pose proof Hin as [<- _]%effective_update_pid.
  done.
Qed.

Lemma elem_leftover updates prev k u :
  effective_update k updates = Some u → k ∉ ids prev →
  u ∈ (leftover updates prev).*2.
Proof.
  intros Hu Hk. apply list_elem_of_fmap. exists (k, u). split; [done|].
  apply list_elem_of_filter. split; [done|].
  apply Map_get_Some. by rewrite batch_map_get.
Qed.

Lemma walk_kept_ids m prev :
  (∀ k v, (k, v) ∈ m → pid v = k) → ids (walk_kept m prev) = ids prev.
Proof.
  revert m. induction prev as [|p prev IH]; intros m Hm; [done|].
  unfold ids in *. csimpl. f_equal.
  - unfold placed. destruct (Map_get _ _) as [u|] eqn:Hget; [|done].
    destruct (arePatientsEqual p u); [done|].
    by apply Map_get_Some, Hm in Hget.
  - apply IH. intros k v [_ Hin]%list_elem_of_filter. by apply Hm.
Qed.

Lemma batch_map_pid updates k v : (k, v) ∈ batch_map updates → pid v = k.
Proof. by intros [? _]%batch_map_entry%effective_update_pid. Qed.

Lemma merged_ids updates prevPatients n :
  ids (content (applyUpdates_updater updates prevPatients n).1) =
  ids (content prevPatients)
    ++ first_occurrences (filter (λ k, k ∉ ids (content prevPatients)) (ids updates)).
Proof.
  rewrite merged_content. unfold ids at 1. rewrite fmap_app.
  fold (ids (walk_kept (batch_map updates) (content prevPatients))).
  rewrite walk_kept_ids by apply batch_map_pid.
  f_equal. apply leftover_ids.
Qed.

(** The first place an id occurs in a collection. *)
Lemma first_index k prev :
  k ∈ ids prev → ∃ i p, prev !! i = Some p ∧ pid p = k ∧ k ∉ ids (take i prev).
Proof.
  induction prev as [|p0 prev IH]; [by intros ?%elem_of_nil|].
  destruct (decide (pid p0 = k)) as [Heq|Hne].
  - intros _. exists 0, p0. repeat split; [done|]. apply not_elem_of_nil.
  - unfold ids. csimpl. intros [?|Hin]%elem_of_cons; [done|].
    destruct (IH Hin) as (i&p&Hi&Hp&Hk).
    exists (S i), p. repeat split; [done..|].
    csimpl. rewrite not_elem_of_cons. naive_solver.
Qed.

(** C1: every stored entity that the batch does not mention, and every
    stored entity whose update (the one the batch holds for its id) is equal
    to it in all compared fields, is found in the returned collection at the
    index it had, as the very same object: same address, not a copy. *)
Theorem merge_preserves_references updates prevPatients n i p :
  content prevPatients !! i = Some p →
  (∀ u, effective_update (pid p) updates = Some u → arePatientsEqual p u = true) →
  content (applyUpdates_updater updates prevPatients n).1 !! i = Some p.
Proof.
  intros Hi Heq. rewrite (merged_kept_lookup _ _ _ _ _ Hi). f_equal.
  case_decide; [done|].
  destruct (effective_update _ _) as [u|]; [|done]. by rewrite Heq.
Qed.

Lemma merge_preserves_references_witness :
  content (applyUpdates_updater [sample_A'; sample_C] sample_prev 8).1 !! 0
  = Some sample_A
  ∧ content (applyUpdates_updater [sample_A'; sample_C] sample_prev 8).1 !! 1
  = Some sample_B.
Proof.
  split.
  - apply (merge_preserves_references [sample_A'; sample_C] sample_prev 8 0 sample_A).
    + reflexivity.
    + intros u Hu. vm_compute in Hu. injection Hu as <-. vm_compute. reflexivity.
  - apply (merge_preserves_references [sample_A'; sample_C] sample_prev 8 1 sample_B).
    + reflexivity.
    + intros u Hu. vm_compute in Hu. discriminate Hu.
Defined.

Lemma merged_same_object updates prevPatients n :
  changed (merge_loops updates (content prevPatients)) = false →
  applyUpdates_updater updates prevPatients n = (prevPatients, S n).
Proof. intros H. unfold applyUpdates_updater, bind, fresh, ret. by rewrite H. Qed.

Lemma merged_new_object updates prevPatients n :
  changed (merge_loops updates (content prevPatients)) = true →
  applyUpdates_updater updates prevPatients n =
  (Object n (nextPatients (merge_loops updates (content prevPatients))), S n).
Proof. intros H. unfold applyUpdates_updater, bind, fresh, ret. by rewrite H. Qed.

Lemma merge_unchanged updates prev :
  (∀ p u, p ∈ prev → effective_update (pid p) updates = Some u →
          arePatientsEqual p u = true) →
  (∀ u, u ∈ updates → pid u ∈ ids prev) →
  changed (merge_loops updates prev) = false.
Proof.
  intros Heq Hold. rewrite merge_loops_spec. simpl.
  apply orb_false_iff. split.
  - apply walk_changed_false. intros p u Hp. rewrite batch_map_get. by apply Heq.
  - apply bool_decide_eq_false. intros Hne. apply Hne.
    apply filter_none. intros [k v] Hin Hk. simpl in Hk.
    apply batch_map_entry, effective_update_pid in Hin as [<- Hv]. auto.
Qed.

(** C2: an empty batch leaves the component state as it is, the stored
    collection included, object for object; and whenever the batch brings no
    new id and no stored entity differs from the update held for it, the
    updater returns the previous collection itself (same address) with
    [changed] still false, not the collection it has been building. *)
Theorem merge_noop_returns_previous :
  (∀ Math_sin Math_round updates st n,
     content updates = [] →
     applyUpdates Math_sin Math_round updates st n = (st, n)) ∧
  (∀ prevPatients n, (applyUpdates_updater [] prevPatients n).1 = prevPatients) ∧
  (∀ updates prevPatients n,
     (∀ p u, p ∈ content prevPatients →
             effective_update (pid p) updates = Some u →
             arePatientsEqual p u = true) →
     (∀ u, u ∈ updates → pid u ∈ ids (content prevPatients)) →
     changed (merge_loops updates (content prevPatients)) = false ∧
     (applyUpdates_updater updates prevPatients n).1 = prevPatients).
Proof.
  split; [|split].
  - intros sin round updates st n Hempty. unfold applyUpdates.
    by rewrite Hempty.
  - intros prevPatients n. rewrite merged_same_object; [done|].
    apply merge_unchanged; [done|]. by intros u ?%elem_of_nil.
  - intros updates prevPatients n Heq Hold.
    pose proof (merge_unchanged _ _ Heq Hold) as Hch. split; [done|].
    by rewrite merged_same_object.
Qed.

Lemma merge_noop_returns_previous_witness :
  applyUpdates flat_wave no_rounding (Object 20 []) sample_state 21
  = (sample_state, 21) ∧
  changed (merge_loops [sample_A'] (content sample_prev)) = false ∧
  (applyUpdates_updater [sample_A'] sample_prev 8).1 = sample_prev.
Proof.
  split.
  - apply (proj1 merge_noop_returns_previous flat_wave no_rounding
             (Object 20 []) sample_state 21).
    reflexivity.
  - apply (proj2 (proj2 merge_noop_returns_previous) [sample_A'] sample_prev 8).
    + intros p u Hp Hu. apply list_elem_of_In in Hp. simpl in Hp.
      destruct Hp as [<-|[<-|[]]]; vm_compute in Hu.
      * injection Hu as <-. vm_compute. reflexivity.
      * discriminate Hu.
    + intros u Hu. apply list_elem_of_In in Hu. simpl in Hu.
      destruct Hu as [<-|[]]. vm_compute. left.
Defined.

(** C3 (as amended): the returned collection is the previous one position by
    position (each place holds the stored entity or the update held for its
    id, so the stored ids keep their order), followed by the updates held
    for the ids not stored before, in the order in which those ids first
    occur in the batch: an id that recurs in the batch keeps the place of
    its first update and carries its last.  In particular previous [[A, B]]
    and updates [[C, B']], with [B'] a changed [B] and [C] new, give
    [[A, B', C]]. *)
Theorem merge_order :
  (∀ updates prevPatients n,
     let prev := content prevPatients in
     let result := content (applyUpdates_updater updates prevPatients n).1 in
     ids (take (length prev) result) = ids prev ∧
     (∀ i p, prev !! i = Some p →
             ∃ q, result !! i = Some q ∧
                  (q = p ∨ effective_update (pid p) updates = Some q)) ∧
     ids (drop (length prev) result) =
       first_occurrences (filter (λ k, k ∉ ids prev) (ids updates)) ∧
     (∀ e, e ∈ drop (length prev) result →
           effective_update (pid e) updates = Some e)) ∧
  (∀ (A B C B' : Patient) a n,
     pid A ≠ pid B → pid C ≠ pid A → pid C ≠ pid B → pid B' = pid B →
     arePatientsEqual B B' = false →
     content (applyUpdates_updater [C; B'] (Object a [A; B]) n).1 = [A; B'; C]).
Proof.
  split.
  - intros updates prevPatients n prev result. subst prev result.
    repeat split.
    + rewrite merged_take. apply walk_kept_ids, batch_map_pid.
    + intros i p Hi. rewrite (merged_kept_lookup _ _ _ _ _ Hi).
      eexists. split; [done|].
      case_decide; [by left|].
      destruct (effective_update _ _) as [u|]; [|by left].
      destruct (arePatientsEqual p u); [by left | by right].
    + rewrite merged_drop. apply leftover_ids.
    + rewrite merged_drop. by intros e [? _]%leftover_elem.
  - intros A B C B' a n HAB HCA HCB HB' Hneq.
    rewrite merged_content. simpl.
    unfold leftover, batch_map, Map_new, placed. simpl.
    rewrite HB'.
    rewrite !(decide_False (P := pid C = pid B)) by done. simpl.
    rewrite !(decide_False (P := pid C = pid A)) by done.
    rewrite !(decide_False (P := pid B = pid A)) by done.
    rewrite !filter_cons. simpl.
    rewrite !(decide_True (P := pid C ≠ pid A)) by done. simpl.
    rewrite !(decide_True (P := pid B ≠ pid A)) by done. simpl.
    rewrite !(decide_False (P := pid C = pid B)) by done. simpl.
    rewrite !(decide_True (P := pid B = pid B)) by done. rewrite Hneq.
    unfold ids. simpl.
    rewrite (decide_True (P := pid C ∉ [pid A; pid B])) by set_solver.
    rewrite (decide_False (P := pid B ∉ [pid A; pid B])) by set_solver.
    done.
Qed.

Lemma merge_order_witness :
  content (applyUpdates_updater [sample_C; sample_B'] sample_prev 8).1
  = [sample_A; sample_B'; sample_C] ∧
  (∃ q, content (applyUpdates_updater [sample_C; sample_B'] sample_prev 8).1 !! 1
        = Some q ∧
        (q = sample_B ∨
         effective_update (pid sample_B) [sample_C; sample_B'] = Some q)) ∧
  effective_update (pid sample_C) [sample_C; sample_B'] = Some sample_C.
Proof.
  split; [|split].
  - apply (proj2 merge_order sample_A sample_B sample_C sample_B' 2 8);
      vm_compute; congruence.
  - apply (proj1 (proj2 (proj1 merge_order [sample_C; sample_B'] sample_prev 8))
             1 sample_B).
    reflexivity.
  - apply (proj2 (proj2 (proj2 (proj1 merge_order [sample_C; sample_B']
                                  sample_prev 8))) sample_C).
    vm_compute. left.
Defined.

(** C3 as stated fails where it says that the new updates are appended in
    the order they appeared in the batch: with [x] carried by the first and
    the third update and [c] by the second, the third update is appended
    before the second. *)
Lemma merge_order_recurring_new_id :
  [sample_x70; sample_C; sample_x80] !! 1 = Some sample_C ∧
  [sample_x70; sample_C; sample_x80] !! 2 = Some sample_x80 ∧
  content (applyUpdates_updater [sample_x70; sample_C; sample_x80]
             sample_prev 8).1
  = [sample_A; sample_B; sample_x80; sample_C].
Proof. repeat split. Qed.

(** C4: whatever the returned collection holds is either an entity that was
    already stored or the last update of the batch carrying its id, and the
    last update for each id does take effect (it is in the result, or the
    stored entity it equals is); no earlier update for an id that recurs in
    the batch gets in.  In particular two updates for [x] into an empty
    collection, heart rates 70 then 80, give the single entity with 80. *)
Theorem merge_last_write_wins :
  (∀ updates prevPatients n e,
     e ∈ content (applyUpdates_updater updates prevPatients n).1 →
     e ∈ content prevPatients ∨ effective_update (pid e) updates = Some e) ∧
  (∀ updates prevPatients n k u,
     effective_update k updates = Some u →
     ∃ e, e ∈ content (applyUpdates_updater updates prevPatients n).1 ∧
          pid e = k ∧
          (e = u ∨ (e ∈ content prevPatients ∧ arePatientsEqual e u = true))) ∧
  (∀ (x1 x2 : Patient) a n,
     pid x1 = pid x2 →
     content (applyUpdates_updater [x1; x2] (Object a []) n).1 = [x2]).
Proof.
  repeat split.
  - intros updates prevPatients n e He.
    destruct (proj1 (list_elem_of_lookup _ _) He) as [i Hi].
    destruct (decide (i < length (content prevPatients))) as [Hlt|Hge].
    + destruct (lookup_lt_is_Some_2 _ _ Hlt) as [p Hp].
      rewrite (merged_kept_lookup _ _ _ _ _ Hp) in Hi.
      pose proof (list_elem_of_lookup_2 _ _ _ Hp) as Hin.
      case_decide; [left; by simplify_eq|].
      destruct (effective_update (pid p) updates) as [u|] eqn:Hu;
        [|left; by simplify_eq].
      destruct (arePatientsEqual p u); [left; by simplify_eq|].
      right. simplify_eq. by pose proof Hu as [-> _]%effective_update_pid.
    + right. apply leftover_elem with (prev := content prevPatients).
      rewrite <-merged_drop with (n := n).
      apply list_elem_of_lookup. exists (i - length (content prevPatients)).
      rewrite lookup_drop, <-Hi. f_equal. lia.
  - intros updates prevPatients n k u Hu.
    pose proof Hu as [Hk _]%effective_update_pid.
    destruct (decide (k ∈ ids (content prevPatients))) as [Hin|Hnin].
    + destruct (first_index _ _ Hin) as (i&p&Hi&Hp&Hfirst).
      pose proof (merged_kept_lookup updates _ n _ _ Hi) as Hres.
      rewrite Hp, decide_False, Hu in Hres by done.
      eexists. split; [by eapply list_elem_of_lookup_2|].
      destruct (arePatientsEqual p u) eqn:Heq.
      * split; [done|]. right. split; [|done]. by eapply list_elem_of_lookup_2.
      * split; [done | by left].
    + exists u. repeat split; [|done | by left].
      rewrite merged_content, elem_of_app. right. by eapply elem_leftover.
  - intros x1 x2 a n Hx. rewrite merged_content. simpl.
    unfold leftover, batch_map, Map_new. simpl.
    rewrite Hx, decide_True by done.
    by rewrite filter_cons_True by apply not_elem_of_nil.
Qed.

Lemma merge_last_write_wins_witness :
  (content (applyUpdates_updater [sample_x70; sample_x80] (Object 2 []) 8).1
   = [sample_x80] ∧ hr sample_x80 = 80%float) ∧
  (sample_x80 ∈ content (Object 2 [] : object (list (object PatientVitals))) ∨
   effective_update (pid sample_x80) [sample_x70; sample_x80] = Some sample_x80) ∧
  (∃ e, e ∈ content (applyUpdates_updater [sample_x70; sample_x80]
                       (Object 2 []) 8).1 ∧
        pid e = "x"%string ∧
        (e = sample_x80 ∨
         (e ∈ content (Object 2 [] : object (list (object PatientVitals))) ∧
          arePatientsEqual e sample_x80 = true))).
Proof.
  split; [|split].
  - split; [|reflexivity].
    apply (proj2 (proj2 merge_last_write_wins) sample_x70 sample_x80 2 8).
    reflexivity.
  - apply (proj1 merge_last_write_wins [sample_x70; sample_x80] (Object 2 []) 8
             sample_x80).
    vm_compute. left.
  - apply (proj1 (proj2 merge_last_write_wins) [sample_x70; sample_x80]
             (Object 2 []) 8 "x"%string sample_x80).
    reflexivity.
Defined.

(** C8: merging into a collection with pairwise distinct ids removes no id,
    yields pairwise distinct ids again, and lengthens the collection by the
    number of distinct ids of the batch that were not stored before. *)
Theorem merge_keeps_ids_unique updates prevPatients n :
  NoDup (ids (content prevPatients)) →
  let prev := content prevPatients in
  let result := content (applyUpdates_updater updates prevPatients n).1 in
  (∀ k, k ∈ ids prev → k ∈ ids result) ∧
  NoDup (ids result) ∧
  length result =
    length prev +
    size ((list_to_set (ids updates) : gset string) ∖ list_to_set (ids prev)).
Proof.
  intros Hnd prev result. subst prev result.
  set (new := first_occurrences
                (filter (λ k, k ∉ ids (content prevPatients)) (ids updates))).
  assert (Hids := merged_ids updates prevPatients n). fold new in Hids.
  repeat split.
  - intros k Hk. rewrite Hids, elem_of_app. by left.
  - rewrite Hids. apply NoDup_app. split; [done|]. split.
    + intros k Hk. unfold new.
      rewrite elem_of_first_occurrences, list_elem_of_filter. naive_solver.
    + apply NoDup_first_occurrences.
  - rewrite <-(length_fmap pid), <-(length_fmap pid (content prevPatients)).
    fold (ids (content (applyUpdates_updater updates prevPatients n).1)).
    fold (ids (content prevPatients)).
    rewrite Hids, length_app. f_equal.
    rewrite <-(size_list_to_set (C := gset string) new)
      by apply NoDup_first_occurrences.
    f_equal. apply set_eq. intros k. unfold new.
    rewrite elem_of_list_to_set, elem_of_first_occurrences, list_elem_of_filter.
    rewrite elem_of_difference, !elem_of_list_to_set. tauto.
Qed.

Lemma merge_keeps_ids_unique_witness :
  NoDup (ids (content sample_prev)) ∧
  NoDup (ids (content (applyUpdates_updater
                         [sample_C; sample_B'; sample_C] sample_prev 8).1)) ∧
  length (content (applyUpdates_updater
                     [sample_C; sample_B'; sample_C] sample_prev 8).1) =
  length (content sample_prev) +
  size ((list_to_set (ids [sample_C; sample_B'; sample_C]) : gset string)
          ∖ list_to_set (ids (content sample_prev))).
Proof.
  assert (Hnd : NoDup (ids (content sample_prev))).
  { apply (bool_decide_unpack _). vm_compute. exact I. }
  split; [exact Hnd|].
  apply (merge_keeps_ids_unique [sample_C; sample_B'; sample_C]
           sample_prev 8 Hnd).
Defined.

(** ** Entity equality *)

Lemma arePatientsEqual_numeric a b :
  arePatientsEqual a b = true ↔ numeric_fields_equal (content a) (content b).
Proof.
  unfold arePatientsEqual, numeric_fields_equal.
  rewrite !andb_true_iff. tauto.
Qed.

(** C7 (as amended): [arePatientsEqual] holds exactly when the seven
    measurements, the timestamp among them, agree under [===]; it does not
    look at the id.  The reconciler applies it only to a stored entity and
    the update held for that entity's id, and there it is equality of every
    field; it decides what the returned collection holds at the entity's
    place: the stored object when it holds, the update when it does not. *)
Theorem arePatientsEqual_decides_replacement :
  (∀ a b, arePatientsEqual a b = true ↔
          numeric_fields_equal (content a) (content b)) ∧
  (∀ updates prevPatients n i p u,
     content prevPatients !! i = Some p →
     pid p ∉ ids (take i (content prevPatients)) →
     effective_update (pid p) updates = Some u →
     (arePatientsEqual p u = true ↔ every_field_equal (content p) (content u)) ∧
     content (applyUpdates_updater updates prevPatients n).1 !! i =
       Some (if arePatientsEqual p u then p else u)).
Proof.
  split; [apply arePatientsEqual_numeric|].
  intros updates prevPatients n i p u Hi Hfirst Hu. split.
  - rewrite arePatientsEqual_numeric. unfold every_field_equal.
    apply effective_update_pid in Hu as [Hid _]. unfold pid in Hid.
    naive_solver.
  - rewrite (merged_kept_lookup _ _ _ _ _ Hi).
    by rewrite decide_False, Hu by done.
Qed.

Lemma arePatientsEqual_decides_replacement_witness :
  content (applyUpdates_updater [sample_C; sample_B'] sample_prev 8).1 !! 1
  = Some sample_B'.
Proof.
  refine (proj2 (proj2 arePatientsEqual_decides_replacement
                   [sample_C; sample_B'] sample_prev 8 1 sample_B sample_B'
                   _ _ _)).
  - reflexivity.
  - apply (bool_decide_unpack _). vm_compute. exact I.
  - reflexivity.
Defined.

(** C7 as stated fails: two records with different ids and the same
    measurements pass [arePatientsEqual]. *)
Lemma arePatientsEqual_ignores_id :
  ¬ (arePatientsEqual sample_A sample_Z = true ↔
     every_field_equal (content sample_A) (content sample_Z)).
Proof.
  intros [Himp _]. destruct (Himp eq_refl) as [Hid _]. discriminate Hid.
Qed.

(** ** History buffer *)

Section History_facts.
Context (Math_sin Math_round : number → number).

Lemma last_is_true nextValue base :
  last_is nextValue base = true ↔
  ∃ x, last base = Some x ∧ strict_eq x nextValue = true.
Proof.
  unfold last_is. rewrite last_lookup, Nat.sub_1_r.
  destruct (base !! pred (length base)); naive_solver.
Qed.

Lemma last_is_false nextValue base :
  last_is nextValue base = false ↔
  ∀ x, last base = Some x → strict_eq x nextValue = false.
Proof.
  unfold last_is. rewrite last_lookup, Nat.sub_1_r.
  destruct (base !! pred (length base)); naive_solver.
Qed.

Lemma slice_last_length {A} k (l : list A) :
  length (slice_last k l) = min (length l) k.
Proof. unfold slice_last. rewrite length_drop. lia. Qed.

Lemma buildSeedHistory_spec patient n :
  ∃ items, buildSeedHistory Math_sin Math_round patient n = (Object n items, S n)
           ∧ length items = HISTORY_LENGTH.
Proof.
  unfold buildSeedHistory, alloc. eexists. split; [done|].
  by rewrite length_fmap, length_seq.
Qed.

Lemma appendHistory_same history nextValue patient n base n' :
  history_or_seed Math_sin Math_round history patient n = (base, n') →
  last_is nextValue (content base) = true →
  appendHistory Math_sin Math_round history nextValue patient n = (base, n').
Proof. intros Hb Hl. unfold appendHistory, bind. by rewrite Hb, Hl. Qed.

Lemma appendHistory_new history nextValue patient n base n' :
  history_or_seed Math_sin Math_round history patient n = (base, n') →
  last_is nextValue (content base) = false →
  appendHistory Math_sin Math_round history nextValue patient n =
  (Object n' (slice_last (HISTORY_LENGTH - 1) (content base) ++ [nextValue]), S n').
Proof. intros Hb Hl. unfold appendHistory, bind. by rewrite Hb, Hl. Qed.

(** C6: when the last element of the history (of the seed, when there is no
    history) is [===] to the value, [appendHistory] returns that very
    sequence; for an existing history it is the caller's own object, same
    address, and nothing is allocated, so a caller comparing references
    sees no change. *)
Theorem appendHistory_dedup history nextValue patient n base n' x :
  history_or_seed Math_sin Math_round history patient n = (base, n') →
  last (content base) = Some x →
  strict_eq x nextValue = true →
  appendHistory Math_sin Math_round history nextValue patient n = (base, n') ∧
  (∀ h, history = Some h →
        appendHistory Math_sin Math_round history nextValue patient n = (h, n) ∧
        same_ref h (appendHistory Math_sin Math_round history nextValue patient n).1
        = true).
Proof.
  intros Hb Hlast Heq.
  assert (Hsame : appendHistory Math_sin Math_round history nextValue patient n
                  = (base, n')).
  { apply appendHistory_same; [done|]. apply last_is_true. eauto. }
  split; [done|]. intros h ->. rewrite Hsame. simpl in Hb.
  unfold ret in Hb. simplify_eq. split; [done|]. by apply bool_decide_eq_true.
Qed.

(** C5 (as amended): when the last element of the history (of the seed, when
    there is no history) is not [===] to the value, [appendHistory] returns
    a newly allocated sequence: the trailing [N - 1] elements of the
    previous one, all of them when it has fewer, followed by the value.  Its
    length is [N] whenever the previous sequence has at least [N - 1]
    elements, as the seed always has, one more than the previous length
    otherwise, and never more than [N]. *)
Theorem appendHistory_shape history nextValue patient n base n' :
  history_or_seed Math_sin Math_round history patient n = (base, n') →
  (∀ x, last (content base) = Some x → strict_eq x nextValue = false) →
  ∃ result,
    appendHistory Math_sin Math_round history nextValue patient n = (result, S n') ∧
    addr result = n' ∧
    (addr base < n' → same_ref base result = false) ∧
    content result =
      slice_last (HISTORY_LENGTH - 1) (content base) ++ [nextValue] ∧
    length (content result) =
      min (length (content base)) (HISTORY_LENGTH - 1) + 1 ∧
    length (content result) ≤ HISTORY_LENGTH ∧
    (HISTORY_LENGTH - 1 ≤ length (content base) →
     length (content result) = HISTORY_LENGTH) ∧
    (history = None → length (content result) = HISTORY_LENGTH).
Proof.
  intros Hb Hlast. eexists. split.
  { apply appendHistory_new; [done|]. by apply last_is_false. }
  simpl. rewrite length_app, slice_last_length. simpl.
  repeat split; unfold HISTORY_LENGTH; try lia.
  { intros Hlt. apply bool_decide_eq_false. simpl. lia. }
  intros ->. simpl in Hb.
  destruct (buildSeedHistory_spec patient n) as (items&Hseed&Hlen).
  rewrite Hseed in Hb. simplify_eq. simpl. rewrite Hlen.
  unfold HISTORY_LENGTH. lia.
Qed.
End History_facts.

Lemma appendHistory_dedup_witness :
  appendHistory flat_wave no_rounding (Some sample_history) 60 sample_x60 13
  = (sample_history, 13) ∧
  same_ref sample_history
    (appendHistory flat_wave no_rounding (Some sample_history) 60 sample_x60 13).1
  = true.
Proof.
  apply (proj2 (appendHistory_dedup flat_wave no_rounding (Some sample_history)
                  60 sample_x60 13 sample_history 13 60
                  eq_refl eq_refl eq_refl) sample_history eq_refl).
Defined.

Lemma appendHistory_shape_witness :
  (∃ result,
     appendHistory flat_wave no_rounding None 71 sample_x70 13 = (result, 15) ∧
     addr result = 14 ∧
     length (content result) = HISTORY_LENGTH) ∧
  (∃ result,
     appendHistory flat_wave no_rounding (Some sample_history) 71 sample_x70 13
     = (result, 14) ∧
     same_ref sample_history result = false ∧
     content result = replicate 18 62%float ++ [60%float; 71%float] ∧
     length (content result) = HISTORY_LENGTH).
Proof.
  split.
  - destruct (appendHistory_shape flat_wave no_rounding None 71 sample_x70 13
                (buildSeedHistory flat_wave no_rounding sample_x70 13).1 14)
      as (result & Hres & Haddr & _ & _ & _ & _ & _ & Hlen).
    + reflexivity.
    + intros x Hx. vm_compute in Hx. injection Hx as <-. reflexivity.
    + exists result. split; [exact Hres|]. split; [exact Haddr|]. by apply Hlen.
  - destruct (appendHistory_shape flat_wave no_rounding (Some sample_history)
                71 sample_x70 13 sample_history 13)
      as (result & Hres & _ & Hnew & Hitems & _ & _ & Hlen & _).
    + reflexivity.
    + intros x Hx. vm_compute in Hx. injection Hx as <-. reflexivity.
    + exists result. split; [exact Hres|]. split.
      * apply Hnew. simpl. lia.
      * split; [exact Hitems|]. apply Hlen. vm_compute. lia.
Defined.

(** C5 as stated fails: a history with fewer than [N - 1] samples grows by
    one and stays shorter than [N]. *)
Lemma appendHistory_short_history :
  last_is 61 (content sample_short) = false ∧
  content (appendHistory flat_wave no_rounding (Some sample_short) 61
             sample_x60 13).1 = [60%float; 61%float] ∧
  length (content (appendHistory flat_wave no_rounding (Some sample_short) 61
                     sample_x60 13).1) ≠ HISTORY_LENGTH.
Proof. repeat split. vm_compute. discriminate. Qed.

(** ** History map: one batch *)

Section Batch_facts.
Context (Math_sin Math_round : number → number).

Lemma last_filter_cons {A} (P : A → Prop) `{!∀ x, Decision (P x)} x (l : list A) :
  last (filter P (x :: l)) =
  match last (filter P l) with
  | Some y => Some y
  | None => if decide (P x) then Some x else None
  end.
Proof.
  rewrite filter_cons. destruct (decide (P x)); [|by destruct (last _)].
  destruct (filter P l) as [|y l'] eqn:Hf; [done|].
  rewrite last_cons_cons. destruct (last (y :: l')) eqn:Hl; [done|].
  by apply last_None in Hl.
Qed.

Lemma history_or_seed_spec history patient n :
  ∃ base n',
    history_or_seed Math_sin Math_round history patient n = (base, n') ∧
    match history with
    | Some h => base = h ∧ n' = n
    | None => addr base = n ∧ n' = S n ∧ length (content base) = HISTORY_LENGTH
    end.
Proof.
  destruct history as [h|]; cbn [history_or_seed].
  - by exists h, n.
  - destruct (buildSeedHistory_spec Math_sin Math_round patient n)
      as (items&Hseed&Hlen).
    exists (Object n items), (S n). by rewrite Hseed.
Qed.

Lemma appendHistory_next history nextValue patient n :
  n ≤ (appendHistory Math_sin Math_round history nextValue patient n).2.
Proof.
  destruct (history_or_seed_spec history patient n) as (base&n'&Hb&Hcase).
  assert (n ≤ n') by (destruct history; naive_solver lia).
  destruct (last_is nextValue (content base)) eqn:Hl.
  - by rewrite (appendHistory_same _ _ _ _ _ _ base n').
  - rewrite (appendHistory_new _ _ _ _ _ _ base n') by done. simpl. lia.
Qed.

(** One iteration of [updates.forEach]. *)
Lemma history_visit_spec prev st update n0 n :
  heap_below n0 prev → n0 ≤ n →
  history_visit Math_sin Math_round prev st update n =
  match prev !! pid update with
  | Some h =>
      if last_is (hr update) (content h) then (st, n)
      else ((<[pid update :=
                 (appendHistory Math_sin Math_round (Some h) (hr update) update n).1]>
               st.1, true), S n)
  | None =>
      ((<[pid update :=
            (appendHistory Math_sin Math_round None (hr update) update n).1]> st.1,
        true),
       (appendHistory Math_sin Math_round None (hr update) update n).2)
  end.
Proof.
  intros Hheap Hn. unfold history_visit, bind.
  destruct (prev !! pid update) as [h|] eqn:Hcur.
  - destruct (last_is (hr update) (content h)) eqn:Hl.
    + rewrite (appendHistory_same _ _ _ _ _ _ h n) by done.
      unfold same_ref. by rewrite bool_decide_eq_true_2.
    + rewrite (appendHistory_new _ _ _ _ _ _ h n) by done.
      unfold same_ref. simpl. rewrite bool_decide_eq_false_2; [done|].
      apply Hheap in Hcur. lia.
  - by destruct (appendHistory _ _ None _ _ _).
Qed.

Lemma history_visit_next prev st update n0 n :
  heap_below n0 prev → n0 ≤ n →
  n ≤ (history_visit Math_sin Math_round prev st update n).2.
Proof.
  intros Hheap Hn. rewrite (history_visit_spec _ _ _ n0) by done.
  repeat case_match; simpl; try lia. apply appendHistory_next.
Qed.

Lemma history_visit_changed prev st update n0 n :
  heap_below n0 prev → n0 ≤ n →
  (history_visit Math_sin Math_round prev st update n).1 = st ∨
  (history_visit Math_sin Math_round prev st update n).1.2 = true.
Proof.
  intros Hheap Hn. rewrite (history_visit_spec _ _ _ n0) by done.
  repeat case_match; simpl; auto.
Qed.

Lemma history_forEach_next prev updates st n0 n :
  heap_below n0 prev → n0 ≤ n →
  n ≤ (history_forEach Math_sin Math_round prev updates st n).2.
Proof.
  intros Hheap. revert st n.
  induction updates as [|u rest IH]; intros st n Hn; simpl; [done|].
  unfold bind.
  pose proof (history_visit_next prev st u n0 n Hheap Hn) as Hnext.
  destruct (history_visit _ _ prev st u n) as [st1 n1]. simpl in *.
  specialize (IH st1 n1 ltac:(lia)). lia.
Qed.

Lemma history_forEach_changed prev updates st n0 n :
  heap_below n0 prev → n0 ≤ n →
  (history_forEach Math_sin Math_round prev updates st n).1 = st ∨
  (history_forEach Math_sin Math_round prev updates st n).1.2 = true.
Proof.
  intros Hheap. revert st n.
  induction updates as [|u rest IH]; intros st n Hn; simpl; [by left|].
  unfold bind.
  pose proof (history_visit_next prev st u n0 n Hheap Hn) as Hnext.
  pose proof (history_visit_changed prev st u n0 n Hheap Hn) as Hch.
  destruct (history_visit _ _ prev st u n) as [st1 n1]. simpl in *.
  destruct (IH st1 n1 ltac:(lia)) as [Heq|Htrue]; [|by right].
  rewrite Heq. destruct Hch as [-> | Htrue]; auto.
Qed.

(** Invariant of [updates.forEach]: what the copy holds for an id. *)
Lemma history_forEach_lookup prev updates st n0 n k :
  heap_below n0 prev → n0 ≤ n →
  match recorded_update (prev !! k) k updates with
  | Some u =>
      ∃ a, n ≤ a ∧
           (appendHistory Math_sin Math_round (prev !! k) (hr u) u a).2
           ≤ (history_forEach Math_sin Math_round prev updates st n).2 ∧
           (history_forEach Math_sin Math_round prev updates st n).1.1 !! k =
           Some (appendHistory Math_sin Math_round (prev !! k) (hr u) u a).1
  | None =>
      (history_forEach Math_sin Math_round prev updates st n).1.1 !! k = st.1 !! k
  end.
Proof.
  intros Hheap. revert st n.
  induction updates as [|u0 rest IH]; intros st n Hn.
  { unfold recorded_update, effective_update. by destruct (prev !! k). }
  simpl. unfold bind.
  pose proof (history_visit_next prev st u0 n0 n Hheap Hn) as Hnext.
  pose proof (history_visit_spec prev st u0 n0 n Hheap Hn) as Hvisit.
  destruct (history_visit _ _ prev st u0 n) as [st1 n1]. simpl in Hnext.
  pose proof (history_forEach_next prev rest st1 n0 n1 Hheap ltac:(lia)) as Hlast.
  specialize (IH st1 n1 ltac:(lia)).
  assert (Hrec : recorded_update (prev !! k) k (u0 :: rest) =
                 match recorded_update (prev !! k) k rest with
                 | Some u => Some u
                 | None =>
                     match prev !! k with
                     | Some h =>
                         if decide (pid u0 = k ∧ last_is (hr u0) (content h) = false)
                         then Some u0 else None
                     | None => if decide (pid u0 = k) then Some u0 else None
                     end
                 end).
  { unfold recorded_update, effective_update.
    destruct (prev !! k); by rewrite last_filter_cons. }
  rewrite Hrec. clear Hrec.
  destruct (recorded_update (prev !! k) k rest) as [u|].
  { destruct IH as (a&Ha&Hlook). exists a. split; [lia | done]. }
  rewrite IH. clear IH.
  destruct (decide (pid u0 = k)) as [Hk|Hk].
  - rewrite Hk in Hvisit. destruct (prev !! k) as [h|] eqn:Hcur.
    + destruct (last_is (hr u0) (content h)) eqn:Hl.
      * rewrite decide_False by naive_solver. by simplify_eq.
      * rewrite decide_True by done. exists n. split; [done|].
        simplify_eq. simpl. rewrite lookup_insert_eq. split; [|done].
        assert ((appendHistory Math_sin Math_round (Some h) (hr u0) u0 n).2 = S n)
          as -> by (by rewrite (appendHistory_new _ _ _ _ _ _ h n)).
        done.
    + exists n. split; [done|]. simplify_eq. simpl.
      by rewrite lookup_insert_eq.
  - assert (st1.1 !! k = st.1 !! k) as ->.
    { repeat case_match; simplify_eq; simpl; by rewrite ?lookup_insert_ne. }
    destruct (prev !! k); [|done]. by rewrite decide_False by naive_solver.
Qed.

Lemma pushHistoryBatch_updater_content updates prev n :
  heap_below n (content prev) →
  content (pushHistoryBatch_updater Math_sin Math_round updates prev n).1 =
  (history_forEach Math_sin Math_round (content prev) updates
     (content prev, false) (S n)).1.1.
Proof.
  intros Hheap. unfold pushHistoryBatch_updater, bind, fresh, ret.
  pose proof (history_forEach_changed (content prev) updates
                (content prev, false) n (S n) Hheap ltac:(lia)) as Hch.
  destruct (history_forEach _ _ _ _ _ _) as [[next ch] n1]. simpl in *.
  destruct Hch as [Heq | ->]; [by simplify_eq | done].
Qed.

Lemma appendHistory_addr history nextValue patient n0 a :
  (∀ h, history = Some h → addr h < n0) → n0 ≤ a →
  addr (appendHistory Math_sin Math_round history nextValue patient a).1
  < (appendHistory Math_sin Math_round history nextValue patient a).2.
Proof.
  intros Hh Ha.
  destruct (history_or_seed_spec history patient a) as (base&n'&Hb&Hcase).
  destruct (last_is nextValue (content base)) eqn:Hl.
  - rewrite (appendHistory_same _ _ _ _ _ _ base n') by done. simpl.
    destruct history as [h|].
    + destruct Hcase as [-> ->]. specialize (Hh h eq_refl). lia.
    + lia.
  - rewrite (appendHistory_new _ _ _ _ _ _ base n') by done. simpl. lia.
Qed.

Lemma appendHistory_length history nextValue patient a :
  (∀ h, history = Some h → length (content h) = HISTORY_LENGTH) →
  length (content (appendHistory Math_sin Math_round history nextValue patient a).1)
  = HISTORY_LENGTH.
Proof.
  intros Hh.
  destruct (history_or_seed_spec history patient a) as (base&n'&Hb&Hcase).
  assert (Hlen : length (content base) = HISTORY_LENGTH).
  { destruct history as [h|]; [|naive_solver].
    destruct Hcase as [-> _]. by apply Hh. }
  destruct (last_is nextValue (content base)) eqn:Hl.
  - by rewrite (appendHistory_same _ _ _ _ _ _ base n').
  - rewrite (appendHistory_new _ _ _ _ _ _ base n') by done. simpl.
    rewrite length_app, slice_last_length, Hlen. done.
Qed.

(** The history map after a batch: its histories are full again and lie
    below the allocator's next free address. *)
Lemma pushHistoryBatch_updater_invariant updates prev n :
  heap_below n (content prev) →
  n < (pushHistoryBatch_updater Math_sin Math_round updates prev n).2 ∧
  heap_below (pushHistoryBatch_updater Math_sin Math_round updates prev n).2
    (content (pushHistoryBatch_updater Math_sin Math_round updates prev n).1) ∧
  (histories_full (content prev) →
   histories_full
     (content (pushHistoryBatch_updater Math_sin Math_round updates prev n).1)).
Proof.
  intros Hheap.
  pose proof (pushHistoryBatch_updater_content updates prev n Hheap) as Hcontent.
  assert (Hcounter :
    (pushHistoryBatch_updater Math_sin Math_round updates prev n).2 =
    (history_forEach Math_sin Math_round (content prev) updates
       (content prev, false) (S n)).2).
  { unfold pushHistoryBatch_updater, bind, fresh, ret.
    by destruct (history_forEach _ _ _ _ _ _). }
  pose proof (history_forEach_next (content prev) updates (content prev, false)
                n (S n) Hheap ltac:(lia)) as Hnext.
  rewrite Hcontent, Hcounter.
  assert (Hcases : ∀ k h,
    (history_forEach Math_sin Math_round (content prev) updates
       (content prev, false) (S n)).1.1 !! k = Some h →
    content prev !! k = Some h ∨
    ∃ u a, S n ≤ a ∧
      (appendHistory Math_sin Math_round (content prev !! k) (hr u) u a).2
      ≤ (history_forEach Math_sin Math_round (content prev) updates
           (content prev, false) (S n)).2 ∧
      h = (appendHistory Math_sin Math_round (content prev !! k) (hr u) u a).1).
  { intros k h Hk.
    pose proof (history_forEach_lookup (content prev) updates
                  (content prev, false) n (S n) k Hheap ltac:(lia)) as Hlook.
    destruct (recorded_update _ _ _) as [u|].
    - destruct Hlook as (a&Ha&Hb&Hlook). right. exists u, a.
      rewrite Hk in Hlook. by simplify_eq.
    - left. simpl in Hlook. by rewrite <-Hlook. }
  split; [lia|]. split.
  - intros k h Hk. destruct (Hcases k h Hk) as [Hold|(u&a&Ha&Hb&->)].
    + apply Hheap in Hold. lia.
    + eapply Nat.lt_le_trans; [|exact Hb].
      apply (appendHistory_addr _ _ _ n); [|lia].
      intros h' Hh'. by apply Hheap in Hh'.
  - intros Hfull k h Hk. destruct (Hcases k h Hk) as [Hold|(u&a&Ha&Hb&->)].
    + by apply Hfull in Hold.
    + apply appendHistory_length. intros h' Hh'. by apply Hfull in Hh'.
Qed.

(** The same for the handlers, on the component state. *)
Lemma pushHistoryBatch_invariant updates st n :
  heap_below n (content (historyMap st)) →
  n ≤ (pushHistoryBatch Math_sin Math_round updates st n).2 ∧
  heap_below (pushHistoryBatch Math_sin Math_round updates st n).2
    (content (historyMap (pushHistoryBatch Math_sin Math_round updates st n).1)) ∧
  (histories_full (content (historyMap st)) →
   histories_full
     (content (historyMap (pushHistoryBatch Math_sin Math_round updates st n).1))).
Proof.
  intros Hheap. unfold pushHistoryBatch.
  case_bool_decide; simpl; [done|].
  unfold bind, ret.
  pose proof (pushHistoryBatch_updater_invariant (content updates)
                (historyMap st) n Hheap) as (Hlt&Hbelow&Hfull).
  destruct (pushHistoryBatch_updater _ _ _ _ _) as [h n2]. simpl in *.
  split; [lia | done].
Qed.

Lemma heap_below_mono n n' m : heap_below n m → n ≤ n' → heap_below n' m.
Proof. intros Hheap Hn k h Hk. apply Hheap in Hk. lia. Qed.

Lemma on_event_invariant ev st n :
  heap_below n (content (historyMap st)) →
  n ≤ (on_event Math_sin Math_round ev st n).2 ∧
  heap_below (on_event Math_sin Math_round ev st n).2
    (content (historyMap (on_event Math_sin Math_round ev st n).1)) ∧
  (histories_full (content (historyMap st)) →
   histories_full
     (content (historyMap (on_event Math_sin Math_round ev st n).1))).
Proof.
  intros Hheap. destruct ev as [| |initialPatients|updates]; simpl; [done..| |].
  - unfold on_initial_patients.
    by apply (pushHistoryBatch_invariant initialPatients
                {| patients := initialPatients; historyMap := historyMap st;
                   isConnected := isConnected st |} n).
  - unfold applyUpdates. case_bool_decide; simpl; [done|].
    unfold bind.
    destruct (applyUpdates_updater _ _ n) as [p n1] eqn:Hp.
    assert (n1 = S n) as ->.
    { unfold applyUpdates_updater, bind, fresh, ret in Hp. by simplify_eq. }
    pose proof (pushHistoryBatch_invariant updates
                  {| patients := p; historyMap := historyMap st;
                     isConnected := isConnected st |} (S n)
                  (heap_below_mono n (S n) _ Hheap ltac:(lia))) as (Hle&Hbelow&Hfull).
    split; [lia | done].
Qed.

(** However many batches arrive, every stored history holds exactly
    [HISTORY_LENGTH] samples. *)
Lemma run_invariant events st n :
  heap_below n (content (historyMap st)) →
  histories_full (content (historyMap st)) →
  heap_below (run Math_sin Math_round events st n).2
    (content (historyMap (run Math_sin Math_round events st n).1)) ∧
  histories_full (content (historyMap (run Math_sin Math_round events st n).1)).
Proof.
  revert st n. induction events as [|ev rest IH]; intros st n Hheap Hfull; [done|].
  simpl. unfold bind.
  pose proof (on_event_invariant ev st n Hheap) as (_&Hbelow&Hfull').
  destruct (on_event _ _ ev st n) as [st1 n1]. simpl in *.
  apply IH; auto.
Qed.

(** X16: once the component runs, every stored history holds exactly
    [HISTORY_LENGTH] samples, whatever snapshots and batches have arrived:
    a history is born full from its seed and every append drops one sample
    for the one it adds. *)
Lemma run_from_initial_state events :
  histories_full
    (content (historyMap (run Math_sin Math_round events initial_state 2).1)).
Proof.
  apply run_invariant; intros k h Hk; simpl in Hk; by rewrite lookup_empty in Hk.
Qed.
End Batch_facts.

(** ** History map: ids that name inherited members *)

Lemma plain_ids_no_inherited_read prev updates :
  plain_ids updates → no_inherited_read prev updates.
Proof.
  intros Hplain u Hu. specialize (Hplain u Hu). unfold read_history.
  case_bool_decide as Hproto.
  { exfalso. apply Hplain. rewrite Hproto.
    apply (bool_decide_unpack _). vm_compute. exact I. }
  destruct (prev !! pid u); [done|]. by rewrite bool_decide_eq_false_2.
Qed.

Lemma no_inherited_read_cons prev u rest :
  no_inherited_read prev (u :: rest) ↔
  read_history prev (pid u) ≠ ReadInherited ∧ no_inherited_read prev rest.
Proof.
  unfold no_inherited_read. split.
  - intros H. split; [apply H; left|intros v Hv; apply H; by right].
  - intros [Hu Hrest] v [->|Hv]%elem_of_cons; auto.
Qed.

Lemma read_history_own prev k :
  read_history prev k ≠ ReadInherited →
  read_history prev k = match prev !! k with
                        | Some h => ReadHistory h
                        | None => ReadUndefined
                        end.
Proof.
  unfold read_history. case_bool_decide; [done|].
  destruct (prev !! k); [done|]. by case_bool_decide.
Qed.

Lemma read_history_cases prev k :
  read_history prev k = ReadInherited ∨ read_history prev k ≠ ReadInherited.
Proof. destruct (read_history prev k); auto. Qed.

Lemma no_inherited_read_cases prev updates :
  no_inherited_read prev updates ∨
  ∃ u, u ∈ updates ∧ read_history prev (pid u) = ReadInherited.
Proof.
  induction updates as [|u rest IH].
  { left. intros u Hu. by apply elem_of_nil in Hu. }
  destruct (read_history_cases prev (pid u)) as [Hin|Hown].
  { right. exists u. split; [left|done]. }
  destruct IH as [Hrest|(v&Hv&Hin)].
  - left. by apply no_inherited_read_cons.
  - right. exists v. split; [by right|done].
Qed.

Section Inherited_facts.
Context (Math_sin Math_round : number → number).

(** Where no read finds an inherited member, the updater for every id does
    what the updater over the own keys does. *)
Lemma history_visit_js_own prev st update n :
  read_history prev (pid update) ≠ ReadInherited →
  history_visit_js Math_sin Math_round prev st update n =
  (Some (history_visit Math_sin Math_round prev st update n).1,
   (history_visit Math_sin Math_round prev st update n).2).
Proof.
  intros Hread. unfold history_visit_js, history_visit.
  rewrite (read_history_own _ _ Hread).
  destruct (prev !! pid update) as [c|]; unfold appendHistory_js, bind, ret;
    destruct (appendHistory _ _ _ _ _ n) as [r n1]; simpl; [|done].
  by destruct (same_ref c r).
Qed.

Lemma history_visit_js_inherited prev st update n :
  read_history prev (pid update) = ReadInherited →
  history_visit_js Math_sin Math_round prev st update n = (None, n).
Proof. intros Hread. unfold history_visit_js. by rewrite Hread. Qed.

Lemma history_forEach_js_own prev updates st n :
  no_inherited_read prev updates →
  history_forEach_js Math_sin Math_round prev updates st n =
  (Some (history_forEach Math_sin Math_round prev updates st n).1,
   (history_forEach Math_sin Math_round prev updates st n).2).
Proof.
  revert st n. induction updates as [|u rest IH]; intros st n Hown; [done|].
  apply no_inherited_read_cons in Hown as [Hu Hrest]. simpl. unfold bind.
  rewrite (history_visit_js_own _ _ _ _ Hu).
  destruct (history_visit _ _ prev st u n) as [st1 n1]. simpl. by apply IH.
Qed.

Lemma history_forEach_js_None prev updates st n :
  (history_forEach_js Math_sin Math_round prev updates st n).1 = None ↔
  ¬ no_inherited_read prev updates.
Proof.
  revert st n. induction updates as [|u rest IH]; intros st n.
  { simpl. split; [done|]. intros H. destruct H. intros u Hu.
    by apply elem_of_nil in Hu. }
  rewrite no_inherited_read_cons. simpl. unfold bind.
  destruct (read_history_cases prev (pid u)) as [Hin|Hown].
  - rewrite (history_visit_js_inherited _ _ _ _ Hin). simpl.
    split; [|done]. intros _ [Hu _]. done.
  - rewrite (history_visit_js_own _ _ _ _ Hown).
    destruct (history_visit _ _ prev st u n) as [st1 n1]. simpl.
    rewrite IH. split; [intros Hrest [_ H]; auto|intros H Hrest; auto].
Qed.

Lemma pushHistoryBatch_updater_js_own updates prev n :
  no_inherited_read (content prev) updates →
  pushHistoryBatch_updater_js Math_sin Math_round updates prev n =
  (Some (pushHistoryBatch_updater Math_sin Math_round updates prev n).1,
   (pushHistoryBatch_updater Math_sin Math_round updates prev n).2).
Proof.
  intros Hown. unfold pushHistoryBatch_updater_js, pushHistoryBatch_updater,
    bind, fresh, ret.
  rewrite (history_forEach_js_own _ _ _ _ Hown).
  by destruct (history_forEach _ _ _ _ _ _) as [[next ch] n1].
Qed.

(** The updater throws exactly when some update of the batch reads an
    inherited member. *)
Lemma pushHistoryBatch_updater_js_throws updates prev n :
  (pushHistoryBatch_updater_js Math_sin Math_round updates prev n).1 = None ↔
  ∃ u, u ∈ updates ∧ read_history (content prev) (pid u) = ReadInherited.
Proof.
  unfold pushHistoryBatch_updater_js, bind, fresh, ret.
  pose proof (history_forEach_js_None (content prev) updates
                (content prev, false) (S n)) as Hnone.
  destruct (history_forEach_js _ _ _ _ _ _) as [[st|] n1]; simpl in *.
  - split; [done|]. intros (u&Hu&Hread). exfalso.
    assert (Hno : ¬ no_inherited_read (content prev) updates).
    { intros Hown. by apply (Hown u Hu). }
    by apply Hnone in Hno.
  - split; [|done]. intros _.
    destruct (no_inherited_read_cases (content prev) updates) as [Hown|Hex];
      [|done].
    by destruct (proj1 Hnone eq_refl).
Qed.

Lemma on_event_js_own ev st n :
  no_inherited_read (content (historyMap st)) (event_entities ev) →
  on_event_js Math_sin Math_round ev st n =
  (Some (on_event Math_sin Math_round ev st n).1,
   (on_event Math_sin Math_round ev st n).2).
Proof.
  intros Hown.
  destruct ev as [| |initialPatients|updates]; simpl in *; [done..| |].
  - unfold on_initial_patients_js, on_initial_patients, pushHistoryBatch_js,
      pushHistoryBatch.
    case_bool_decide; [done|]. unfold bind, ret. simpl.
    rewrite (pushHistoryBatch_updater_js_own _ _ _ Hown).
    by destruct (pushHistoryBatch_updater _ _ _ _ _).
  - unfold applyUpdates_js, applyUpdates, pushHistoryBatch_js, pushHistoryBatch.
    case_bool_decide; [done|]. unfold bind, ret.
    destruct (applyUpdates_updater _ _ _) as [p n1]. simpl.
    rewrite (pushHistoryBatch_updater_js_own _ _ _ Hown).
    by destruct (pushHistoryBatch_updater _ _ _ _ _).
Qed.
End Inherited_facts.

Lemma recorded_update_elem current k updates u :
  recorded_update current k updates = Some u → u ∈ updates ∧ pid u = k.
Proof.
  unfold recorded_update, effective_update.
  destruct current; intros Hl%last_Some_elem_of;
    apply list_elem_of_filter in Hl; naive_solver.
Qed.

(** C10 (as amended): within one batch every [appendHistory] call starts
    from the history the id had before the batch.  So, provided no update
    of the batch reads an inherited member of the history object (the
    updater throws otherwise), the updater returns, and for every id the
    history stored after the batch is the one stored before it, or the
    result of a single [appendHistory] on that one (or on the seed, for an
    id without history): one sample more at most, however often the id
    recurs in the batch.  The sample is that of the last update for the id
    whose heart rate is not already the last sample of the previous history
    (of the last update for the id, when there was no history); an earlier
    duplicate is the one recorded when the later ones repeat that last
    sample. *)
Theorem pushHistoryBatch_one_sample Math_sin Math_round updates prev n k :
  heap_below n (content prev) →
  no_inherited_read (content prev) updates →
  ∃ result n',
    pushHistoryBatch_updater_js Math_sin Math_round updates prev n
    = (Some result, n') ∧
    match recorded_update (content prev !! k) k updates with
    | Some u =>
        u ∈ updates ∧ pid u = k ∧
        (∃ a, content result !! k =
              Some (appendHistory Math_sin Math_round (content prev !! k) (hr u) u a).1) ∧
        (∀ h, content prev !! k = Some h →
              ∃ h', content result !! k = Some h' ∧
                    content h' = slice_last (HISTORY_LENGTH - 1) (content h) ++ [hr u])
    | None => content result !! k = content prev !! k
    end.
Proof.
  intros Hheap Hown. eexists _, _.
  split; [by apply pushHistoryBatch_updater_js_own|].
  rewrite pushHistoryBatch_updater_content by done.
  pose proof (history_forEach_lookup Math_sin Math_round (content prev) updates
                (content prev, false) n (S n) k Hheap ltac:(lia)) as Hlook.
  destruct (recorded_update (content prev !! k) k updates) as [u|] eqn:Hrec;
    [|done].
  destruct Hlook as (a&_&_&Hlook).
  pose proof (recorded_update_elem _ _ _ _ Hrec) as [Hin Hk].
  repeat split; [done..|by exists a|].
  intros h Hh. rewrite Hlook, Hh. eexists. split; [done|].
  rewrite Hh in Hrec. simpl in Hrec.
  apply last_Some_elem_of, list_elem_of_filter in Hrec as [[_ Hl] _].
  by rewrite (appendHistory_new _ _ _ _ _ _ h a).
Qed.

(** An id naming an inherited member that is not an own key yet: the
    updater throws, where the updater over the own keys seeds a history. *)
Example pushHistoryBatch_updater_js_toString :
  pushHistoryBatch_updater_js flat_wave no_rounding
    [sample_toString] (Object 1 ∅) 21 = (None, 22) ∧
  is_Some (content (pushHistoryBatch_updater flat_wave no_rounding
                      [sample_toString] (Object 1 ∅) 21).1
             !! "toString"%string).
Proof. split; [reflexivity|]. vm_compute. eauto. Qed.

Lemma sample_histories_below : heap_below 13 (content sample_histories).
Proof.
  intros k h Hk. unfold sample_histories in Hk. simpl in Hk.
  apply lookup_singleton_Some in Hk as [_ <-]. simpl. lia.
Qed.

Lemma sample_batches_own_reads updates :
  Forall (λ u, pid u ∉ Object_prototype_members) updates →
  no_inherited_read (content sample_histories) updates.
Proof.
  intros Hall. apply plain_ids_no_inherited_read. intros u Hu.
  by apply (proj1 (Forall_forall _ _) Hall).
Qed.

Lemma pushHistoryBatch_one_sample_witness :
  ∃ result n',
    pushHistoryBatch_updater_js flat_wave no_rounding
      [sample_x70; sample_x80] sample_histories 13 = (Some result, n') ∧
    ∃ h', content result !! "x"%string = Some h' ∧
          content h' = slice_last (HISTORY_LENGTH - 1) (content sample_history)
                         ++ [80%float].
Proof.
  assert (Hown : no_inherited_read (content sample_histories)
                   [sample_x70; sample_x80]).
  { apply sample_batches_own_reads.
    repeat (apply Forall_cons; split); try apply Forall_nil;
      apply (bool_decide_unpack _); vm_compute; exact I. }
  destruct (pushHistoryBatch_one_sample flat_wave no_rounding
              [sample_x70; sample_x80] sample_histories 13 "x"%string
              sample_histories_below Hown) as (result & n' & Hrun & H).
  exists result, n'. split; [exact Hrun|].
  change (recorded_update _ _ _) with (Some sample_x80) in H.
  destruct H as (_ & _ & _ & H). apply (H sample_history). reflexivity.
Defined.

(** C10 as stated fails where it says that the value of an earlier duplicate
    is never recorded: with a history ending in 60 and a batch carrying 70
    and then 60 for the same id, the stored history ends in 70, the earlier
    update's value, while the update the batch holds for the id carries 60. *)
Lemma pushHistoryBatch_records_earlier_duplicate :
  effective_update "x"%string [sample_x70; sample_x60] = Some sample_x60 ∧
  hr sample_x60 = 60%float ∧
  content <$> (content (pushHistoryBatch_updater flat_wave no_rounding
                          [sample_x70; sample_x60] sample_histories 13).1
                 !! "x"%string)
  = Some (replicate 18 62%float ++ [60%float; 70%float]).
Proof. repeat split; vm_compute; reflexivity. Qed.

(** ** Worker task pipeline *)

Lemma caller_settled_promise c later :
  promise c ≠ Pending → promise (foldl caller_step c later) = promise c.
Proof.
  revert c. induction later as [|ev later IH]; intros c Hc; [done|].
  simpl. assert (Hstep : promise (caller_step c ev) = promise c).
  { unfold caller_step. destruct (listening c); [|done].
    destruct ev; simpl; try case_bool_decide; unfold settle;
      by destruct (promise c). }
  rewrite IH; [done|]. by rewrite Hstep.
Qed.

(** C9: for every payload it receives, the worker's listener posts exactly
    one reply and lets no exception escape: the success marker when the
    work returns, a failure carrying the thrown error's message when it
    throws.  That reply is the one event the caller receives from a worker
    that loaded; it resolves the promise, or rejects it with an error made
    of that message (of ['Worker failed'] when the message is empty), and it
    detaches the listeners.  A worker that fails to load rejects the promise
    with its error, a payload that cannot be copied rejects it with the
    copy's error.  In every case the promise is settled: it is never left
    pending, and no later event changes it. *)
Theorem worker_single_terminal_reply {P : Type} (start : WorkerStart)
    (posting : Posting) (vitals : P) (run : Completion) :
  posted (worker_on_message vitals run) =
    [ match run with
      | Returns => {| ok := true; error := None |}
      | Throws message => {| ok := false; error := Some message |}
      end ] ∧
  ended (worker_on_message vitals run) = inr tt ∧
  worker_thread Loads (worker_inbox Cloned vitals) run =
    [ OnMessage match run with
                | Returns => {| ok := true; error := None |}
                | Throws message => {| ok := false; error := Some message |}
                end ] ∧
  promise (runEncryptionInWorker start posting vitals run) =
    match posting, start, run with
    | NotCloneable err, _, _ => Rejected (Thrown err)
    | Cloned, FailsToLoad err, _ => Rejected (WorkerError err)
    | Cloned, Loads, Returns => Resolved
    | Cloned, Loads, Throws message =>
        Rejected (ErrorMessage (if bool_decide (message = EmptyString)
                                then "Worker failed"%string else message))
    end ∧
  listening (runEncryptionInWorker start Cloned vitals run) = false ∧
  promise (runEncryptionInWorker start posting vitals run) ≠ Pending ∧
  ∀ later : list WorkerEvent,
    promise (foldl caller_step
               (runEncryptionInWorker start posting vitals run) later) =
    promise (runEncryptionInWorker start posting vitals run).
Proof.
  assert (Hsettled :
    promise (runEncryptionInWorker start posting vitals run) ≠ Pending).
  { by destruct posting, start, run. }
  split; [by destruct run|]. split; [by destruct run|].
  split; [by destruct run|].
  split; [by destruct posting, start, run|].
  split; [by destruct start, run|].
  split; [done|].
  intros later. by apply caller_settled_promise.
Qed.

(** A thrown error with a message reaches the caller with that message,
    and a listener without the [catch] would have let it escape as an
    ['error'] event instead of a reply. *)
Example worker_failure_reaches_caller :
  promise (runEncryptionInWorker Loads Cloned 0
             (Throws "Invalid digest: sha512")) =
  Rejected (ErrorMessage "Invalid digest: sha512") ∧
  emitted (w_bind (simulateHeavyEncryption (Throws "Invalid digest: sha512"))
                  (λ _, postMessage {| ok := true; error := None |})) =
  [OnError "Invalid digest: sha512"; OnExit 1].
Proof. split; reflexivity. Qed.

(** * Further properties of the code *)

(** ** Comparisons on numbers *)

Ltac sf_const c :=
  let x := eval vm_compute in (Prim2SF c) in change (Prim2SF c) with x.

Lemma ltb_38_above_37_5 (v : number) :
  PrimFloat.ltb 38 v = true → PrimFloat.ltb 37.5 v = true.
Proof.
  rewrite !FloatAxioms.ltb_spec. unfold SFltb.
  sf_const 38%float. sf_const 37.5%float.
  destruct (Prim2SF v) as [s|s| |s m e]; cbn [SFcompare]; try done.
  destruct s; [done|].
  destruct (_ ?= e)%Z; try done.
  fold (Pos.compare 5348024557502464 m). fold (Pos.compare 5277655813324800 m).
  destruct (5348024557502464 ?= m)%positive eqn:Hm; try done. intros _.
  assert (Hlt : (5277655813324800 < m)%positive).
  { eapply Pos.lt_trans; [|exact Hm]. reflexivity. }
  unfold Pos.lt in Hlt. by rewrite Hlt.
Qed.

Lemma ltb_leb (a b : number) :
  PrimFloat.ltb a b = true → PrimFloat.leb a b = true.
Proof.
  rewrite FloatAxioms.ltb_spec, FloatAxioms.leb_spec. unfold SFltb, SFleb.
  by destruct (SFcompare _ _) as [[]|].
Qed.

(** ** Status classes *)

(** X1: a temperature is never shown in red.  Whatever the value, the
    [temperature] case returns the yellow or the grey class: every value
    above 38 is above 37.5 and has already been answered yellow, so the
    red branch cannot be reached. *)
Theorem getVitalStatus_temperature_never_red (value : number) :
  getVitalStatus "temperature" value ≠ "text-red-600"%string ∧
  (PrimFloat.ltb 38 value = true →
   getVitalStatus "temperature" value = "text-yellow-600"%string).
Proof.
  unfold getVitalStatus.
  rewrite !(decide_False (P := "temperature"%string = _)) by done.
  rewrite decide_True by done.
  destruct (PrimFloat.ltb 38 value) eqn:Habove.
  - rewrite (ltb_38_above_37_5 _ Habove), orb_true_r. by split.
  - destruct (_ || _); by split.
Qed.

Lemma getVitalStatus_temperature_never_red_witness :
  PrimFloat.ltb 38 (temperature (content sample_fever)) = true ∧
  getVitalStatus "temperature" (temperature (content sample_fever))
  = "text-yellow-600"%string.
Proof.
  split; [reflexivity|].
  apply (proj2 (getVitalStatus_temperature_never_red
                  (temperature (content sample_fever)))).
  reflexivity.
Defined.

(** X2: a card is marked critical exactly when the heart rate or the oxygen
    saturation of its patient is shown in red; blood pressure and
    temperature have no part in it. *)
Theorem isCritical_iff_red (patient : Patient) :
  isCritical patient = true ↔
  getVitalStatus "heartRate" (hr patient) = "text-red-600"%string ∨
  getVitalStatus "oxygenSaturation" (oxygenSaturation (content patient))
  = "text-red-600"%string.
Proof.
  unfold isCritical, getVitalStatus.
  rewrite !(decide_False (P := "oxygenSaturation"%string = _)) by done.
  rewrite !decide_True by done.
  destruct (PrimFloat.ltb (oxygenSaturation (content patient)) 95),
    (PrimFloat.ltb 100 (hr patient)), (PrimFloat.ltb (hr patient) 60);
    simpl; naive_solver.
Qed.

Lemma isCritical_iff_red_witness :
  isCritical sample_tachy = true ∧ isCritical sample_fever = false.
Proof.
  split.
  - apply (proj2 (isCritical_iff_red sample_tachy)). left. reflexivity.
  - destruct (isCritical sample_fever) eqn:Hc; [|reflexivity].
    destruct (proj1 (isCritical_iff_red sample_fever) Hc) as [Hred|Hred];
      vm_compute in Hred; discriminate Hred.
Defined.

(** ** Seed and sliding window *)

Lemma Math_max_30 (x : number) :
  PrimFloat.is_nan (Math_max 30 x) = true ∨
  PrimFloat.leb 30 (Math_max 30 x) = true.
Proof.
  unfold Math_max.
  change (PrimFloat.is_nan 30) with false.
  change (PrimFloat.eqb 30 0) with false.
  rewrite orb_false_l.
  destruct (PrimFloat.is_nan x); [by left|].
  destruct (PrimFloat.ltb 30 x) eqn:Hlt; [right; by apply ltb_leb|].
  destruct (PrimFloat.ltb x 30); by right.
Qed.

Section Window_facts.
Context (Math_sin Math_round : number → number).

(** X3: the seed of a history has exactly [HISTORY_LENGTH] samples, none of
    them a number below the floor of 30: a sample is [NaN] or at least 30,
    whatever the patient's heart rate and id. *)
Theorem buildSeedHistory_floor (patient : Patient) (n : loc) :
  length (content (buildSeedHistory Math_sin Math_round patient n).1)
  = HISTORY_LENGTH ∧
  ∀ s, s ∈ content (buildSeedHistory Math_sin Math_round patient n).1 →
       PrimFloat.is_nan s = true ∨ PrimFloat.leb 30 s = true.
Proof.
  unfold buildSeedHistory, alloc. cbn [fst content]. split.
  - by rewrite length_fmap, length_seq.
  - intros s (i&->&_)%list_elem_of_fmap. apply Math_max_30.
Qed.

Lemma slice_last_snoc {A} (l : list A) (v : A) :
  slice_last (HISTORY_LENGTH - 1) l ++ [v] = slice_last HISTORY_LENGTH (l ++ [v]).
Proof.
  unfold slice_last, HISTORY_LENGTH. rewrite length_app. simpl.
  rewrite drop_app_le by lia. f_equal. f_equal. lia.
Qed.

Lemma slice_last_app_slice {A} k (l t : list A) :
  slice_last k (slice_last k l ++ t) = slice_last k (l ++ t).
Proof.
  unfold slice_last. rewrite !length_app, length_drop.
  remember (length l - k) as d eqn:Hdef.
  transitivity (drop (length l + length t - k) (take d l ++ (drop d l ++ t))).
  - assert (Hd : length (take d l) = d) by (apply length_take_le; lia).
    rewrite (drop_app_ge (take d l)) by lia. f_equal. lia.
  - by rewrite app_assoc, take_drop.
Qed.

Lemma slice_last_short {A} k (l : list A) : length l ≤ k → slice_last k l = l.
Proof. intros Hl. unfold slice_last. by replace (length l - k) with 0 by lia. Qed.

Lemma appendHistory_stream_content h vs patient n x :
  length (content h) ≤ HISTORY_LENGTH →
  last (content h) = Some x →
  content (appendHistory_stream Math_sin Math_round h vs patient n).1 =
  slice_last HISTORY_LENGTH (content h ++ compress x vs).
Proof.
  revert h n x. induction vs as [|v vs IH]; intros h n x Hlen Hlast.
  { simpl. by rewrite app_nil_r, slice_last_short. }
  cbn [appendHistory_stream compress]. unfold bind.
  destruct (strict_eq x v) eqn:Hxv.
  - rewrite (appendHistory_same _ _ _ _ _ _ h n); [by apply IH|done|].
    apply (last_is_true Math_sin Math_round). by exists x.
  - rewrite (appendHistory_new _ _ _ _ _ _ h n); [|done|].
    + rewrite (IH _ _ v); cbn [content].
      * rewrite slice_last_snoc, slice_last_app_slice.
        by rewrite <-app_assoc.
      * rewrite length_app, slice_last_length. unfold HISTORY_LENGTH. simpl. lia.
      * apply last_snoc.
    + apply (last_is_false Math_sin Math_round). intros y Hy. by simplify_eq.
Qed.

(** X4: a history is a sliding window over the stream of values.  Calling
    [appendHistory] once per value, each time on the history returned
    before, leaves the last [HISTORY_LENGTH] elements of the old history
    followed by the stream with consecutive repeats dropped: the oldest
    samples leave first, and never more than [HISTORY_LENGTH] are kept. *)
Theorem appendHistory_sliding_window h vs patient n x :
  length (content h) ≤ HISTORY_LENGTH →
  last (content h) = Some x →
  content (appendHistory_stream Math_sin Math_round h vs patient n).1 =
    slice_last HISTORY_LENGTH (content h ++ compress x vs) ∧
  length (content (appendHistory_stream Math_sin Math_round h vs patient n).1)
  ≤ HISTORY_LENGTH.
Proof.
  intros Hlen Hlast. rewrite (appendHistory_stream_content _ _ _ _ x) by done.
  split; [done|]. rewrite slice_last_length. lia.
Qed.
End Window_facts.

Lemma buildSeedHistory_floor_witness :
  PrimFloat.is_nan 70 = true ∨ PrimFloat.leb 30 70 = true.
Proof.
  apply (proj2 (buildSeedHistory_floor flat_wave no_rounding sample_x70 13)).
  vm_compute. left.
Defined.

Lemma appendHistory_sliding_window_witness :
  content (appendHistory_stream flat_wave no_rounding sample_history
             [60; 61; 61; 63; 60]%float sample_x60 14).1
  = replicate 16 62%float ++ [60; 61; 63; 60]%float.
Proof.
  apply (proj1 (appendHistory_sliding_window flat_wave no_rounding
                  sample_history [60; 61; 61; 63; 60]%float sample_x60 14 60
                  ltac:(vm_compute; lia) eq_refl)).
Defined.

(** ** History map: which histories a batch touches *)

Lemma effective_update_None k updates :
  effective_update k updates = None ↔ k ∉ ids updates.
Proof.
  unfold effective_update, ids. rewrite last_None. split.
  - intros Hnil (p&->&Hp)%list_elem_of_fmap.
    by eapply (filter_nil_not_elem_of _ _ p Hnil).
  - intros Hk. apply filter_none. intros u Hu Hpid. apply Hk.
    apply list_elem_of_fmap. by exists u.
Qed.

Lemma recorded_update_absent current k updates :
  k ∉ ids updates → recorded_update current k updates = None.
Proof.
  intros Hk. destruct current as [h|]; simpl.
  - apply last_None, filter_none. intros u Hu [Hpid _]. apply Hk.
    apply list_elem_of_fmap. by exists u.
  - by apply effective_update_None.
Qed.

Section Touch_facts.
Context (Math_sin Math_round : number → number).

Lemma pushHistoryBatch_updater_frame updates prev n k :
  heap_below n (content prev) →
  recorded_update (content prev !! k) k updates = None →
  content (pushHistoryBatch_updater Math_sin Math_round updates prev n).1 !! k
  = content prev !! k.
Proof.
  intros Hheap Hrec.
  rewrite (pushHistoryBatch_updater_content Math_sin Math_round) by done.
  pose proof (history_forEach_lookup Math_sin Math_round (content prev) updates
                (content prev, false) n (S n) k Hheap ltac:(lia)) as Hlook.
  by rewrite Hrec in Hlook.
Qed.

Lemma pushHistoryBatch_updater_is_Some updates prev n k :
  heap_below n (content prev) →
  is_Some (content (pushHistoryBatch_updater Math_sin Math_round updates prev n).1 !! k)
  ↔ is_Some (content prev !! k) ∨ k ∈ ids updates.
Proof.
  intros Hheap.
  rewrite (pushHistoryBatch_updater_content Math_sin Math_round) by done.
  pose proof (history_forEach_lookup Math_sin Math_round (content prev) updates
                (content prev, false) n (S n) k Hheap ltac:(lia)) as Hlook.
  destruct (recorded_update (content prev !! k) k updates) as [u|] eqn:Hrec.
  - destruct Hlook as (a&_&_&->).
    apply recorded_update_elem in Hrec as [Hin <-].
    split; [|by eauto]. intros _. right. apply list_elem_of_fmap. by exists u.
  - simpl in Hlook. rewrite Hlook. split; [by left|].
    intros [Hsome|Hin]; [done|].
    destruct (content prev !! k) as [h|] eqn:Hk; [done|].
    simpl in Hrec. by apply effective_update_None in Hrec.
Qed.

(** X6: a batch adds histories, it never drops or touches another one.
    Provided no update of the batch reads an inherited member of the
    history object, the updater returns a map that has a history for
    exactly the ids it had before and the ids of the batch, and every id
    the batch does not mention keeps the very history object it had. *)
Theorem pushHistoryBatch_updater_domain updates prev n :
  heap_below n (content prev) →
  no_inherited_read (content prev) updates →
  ∃ result n',
    pushHistoryBatch_updater_js Math_sin Math_round updates prev n
    = (Some result, n') ∧
    dom (content result)
    = dom (content prev) ∪ (list_to_set (ids updates) : gset string) ∧
    ∀ k, k ∉ ids updates → content result !! k = content prev !! k.
Proof.
  intros Hheap Hown. eexists _, _.
  split; [by apply pushHistoryBatch_updater_js_own|]. split.
  - apply set_eq. intros k.
    rewrite elem_of_union, !elem_of_dom, elem_of_list_to_set.
    by apply pushHistoryBatch_updater_is_Some.
  - intros k Hk. apply pushHistoryBatch_updater_frame; [done|].
    by apply recorded_update_absent.
Qed.

Lemma history_forEach_flag prev updates st n0 n :
  heap_below n0 prev → n0 ≤ n →
  (history_forEach Math_sin Math_round prev updates st n).1.2 =
  st.2 || existsb (refreshes prev) updates.
Proof.
  intros Hheap. revert st n.
  induction updates as [|u rest IH]; intros st n Hn; simpl.
  { by rewrite orb_false_r. }
  unfold bind.
  pose proof (history_visit_next Math_sin Math_round prev st u n0 n Hheap Hn)
    as Hnext.
  pose proof (history_visit_spec Math_sin Math_round prev st u n0 n Hheap Hn)
    as Hvisit.
  destruct (history_visit _ _ prev st u n) as [st1 n1]. simpl in Hnext.
  rewrite IH by lia.
  assert (st1.2 = st.2 || refreshes prev u) as ->; [|by rewrite orb_assoc].
  unfold refreshes.
  destruct (prev !! pid u) as [h|].
  - destruct (last_is (hr u) (content h)); simplify_eq; simpl;
      by rewrite ?orb_true_r, ?orb_false_r.
  - simplify_eq. simpl. by rewrite orb_true_r.
Qed.

Lemma pushHistoryBatch_updater_result updates prev n :
  heap_below n (content prev) →
  (pushHistoryBatch_updater Math_sin Math_round updates prev n).1 =
  if existsb (refreshes (content prev)) updates
  then Object n (history_forEach Math_sin Math_round (content prev) updates
                   (content prev, false) (S n)).1.1
  else prev.
Proof.
  intros Hheap.
  pose proof (history_forEach_flag (content prev) updates (content prev, false)
                n (S n) Hheap ltac:(lia)) as Hflag.
  unfold pushHistoryBatch_updater, bind, fresh, ret.
  destruct (history_forEach _ _ _ _ _ _) as [[next ch] n1]. simpl in *.
  by rewrite Hflag.
Qed.

(** X5: provided no update of the batch reads an inherited member of the
    history object, the updater returns, and it hands back the previous
    history map itself, same object, exactly when no update of the batch
    writes a history: every update's id already has one and its heart rate
    is [===] to the last sample there.  Otherwise the result is a newly
    allocated map. *)
Theorem pushHistoryBatch_updater_same_iff updates prev n :
  heap_below n (content prev) →
  addr prev < n →
  no_inherited_read (content prev) updates →
  ∃ result n',
    pushHistoryBatch_updater_js Math_sin Math_round updates prev n
    = (Some result, n') ∧
    (result = prev ↔
     ∀ u, u ∈ updates →
          ∃ h, content prev !! pid u = Some h ∧
               last_is (hr u) (content h) = true) ∧
    (result ≠ prev → addr result = n).
Proof.
  intros Hheap Haddr Hown. eexists _, _.
  split; [by apply pushHistoryBatch_updater_js_own|].
  rewrite pushHistoryBatch_updater_result by done.
  destruct (existsb (refreshes (content prev)) updates) eqn:Hex.
  - split; [|done]. split.
    + intros Heq. rewrite <-Heq in Haddr. simpl in Haddr. lia.
    + intros Hall. apply existsb_exists in Hex as (u&Hu%list_elem_of_In&Hr).
      destruct (Hall u Hu) as (h&Hh&Hl). unfold refreshes in Hr.
      by rewrite Hh, Hl in Hr.
  - split; [|done]. split; [|done]. intros _ u Hu.
    assert (Hr : refreshes (content prev) u = false).
    { destruct (refreshes (content prev) u) eqn:Hr; [|done].
      rewrite <-Hex. symmetry. apply existsb_exists. exists u.
      by rewrite <-list_elem_of_In. }
    unfold refreshes in Hr. destruct (content prev !! pid u) as [h|]; [|done].
    exists h. split; [done|]. by apply negb_false_iff.
Qed.
End Touch_facts.

Ltac sample_own_reads :=
  apply sample_batches_own_reads;
  repeat (apply Forall_cons; split); try apply Forall_nil;
  apply (bool_decide_unpack _); vm_compute; exact I.

Lemma pushHistoryBatch_updater_domain_witness :
  ∃ result n',
    pushHistoryBatch_updater_js flat_wave no_rounding
      [sample_B'; sample_C] sample_histories 13 = (Some result, n') ∧
    dom (content result)
    = dom (content sample_histories)
      ∪ (list_to_set (ids [sample_B'; sample_C]) : gset string) ∧
    content result !! "x"%string = content sample_histories !! "x"%string.
Proof.
  destruct (pushHistoryBatch_updater_domain flat_wave no_rounding
              [sample_B'; sample_C] sample_histories 13
              sample_histories_below ltac:(sample_own_reads))
    as (result & n' & Hrun & Hdom & Hframe).
  exists result, n'. split; [exact Hrun|]. split; [exact Hdom|].
  apply Hframe. apply (bool_decide_unpack _). vm_compute. exact I.
Defined.

Lemma pushHistoryBatch_updater_same_iff_witness :
  (∃ result n',
     pushHistoryBatch_updater_js flat_wave no_rounding [sample_x60]
       sample_histories 13 = (Some result, n') ∧ result = sample_histories) ∧
  (∃ result n',
     pushHistoryBatch_updater_js flat_wave no_rounding [sample_x80]
       sample_histories 13 = (Some result, n') ∧ addr result = 13).
Proof.
  split.
  - destruct (pushHistoryBatch_updater_same_iff flat_wave no_rounding
                [sample_x60] sample_histories 13 sample_histories_below
                ltac:(simpl; lia) ltac:(sample_own_reads))
      as (result & n' & Hrun & Hsame & _).
    exists result, n'. split; [exact Hrun|]. apply Hsame.
    intros u Hu. apply list_elem_of_In in Hu. simpl in Hu.
    destruct Hu as [<-|[]]. exists sample_history. split; reflexivity.
  - destruct (pushHistoryBatch_updater_same_iff flat_wave no_rounding
                [sample_x80] sample_histories 13 sample_histories_below
                ltac:(simpl; lia) ltac:(sample_own_reads))
      as (result & n' & Hrun & _ & Hnew).
    exists result, n'. split; [exact Hrun|]. apply Hnew.
    intros ->. vm_compute in Hrun. discriminate.
Defined.

(** ** Reconciler: when the collection is reused, and merging twice *)

Lemma walk_changed_false_iff m prev :
  walk_changed m prev = false ↔
  ∀ i p u, prev !! i = Some p → pid p ∉ ids (take i prev) →
           Map_get (pid p) m = Some u → arePatientsEqual p u = true.
Proof.
  revert m. induction prev as [|p0 prev IH]; intros m; simpl.
  { split; [by intros _ i p u ?|done]. }
  rewrite orb_false_iff, IH. unfold replaces. split.
  - intros [Hp0 Hrest] i p u Hi Hfirst Hget. destruct i as [|i]; simpl in *.
    + simplify_eq. rewrite Hget in Hp0. by apply negb_false_iff.
    + unfold ids in Hfirst. rewrite not_elem_of_cons in Hfirst.
      destruct Hfirst as [Hne Hfirst].
      apply (Hrest i p u Hi Hfirst).
      by rewrite (Map_get_filter _ (λ k, k ≠ pid p0)), decide_True by done.
  - intros Hall. split.
    + destruct (Map_get (pid p0) m) as [u|] eqn:Hget; [|done].
      apply negb_false_iff.
      apply (Hall 0 p0 u); [done | apply not_elem_of_nil | done].
    + intros i p u Hi Hfirst Hget.
      rewrite (Map_get_filter _ (λ k, k ≠ pid p0)) in Hget by done.
      case_decide as Hne; [|done].
      apply (Hall (S i) p u); [done| |done].
      unfold ids. simpl. rewrite not_elem_of_cons. by split.
Qed.

Lemma leftover_nil_iff updates prev :
  leftover updates prev = [] ↔ ∀ u, u ∈ updates → pid u ∈ ids prev.
Proof.
  split.
  - intros Hnil u Hu. destruct (decide (pid u ∈ ids prev)) as [|Hout]; [done|].
    destruct (effective_update (pid u) updates) as [u'|] eqn:Heff.
    + pose proof (elem_leftover _ _ _ _ Heff Hout) as Hin.
      rewrite Hnil in Hin. by apply elem_of_nil in Hin.
    + apply effective_update_None in Heff. destruct Heff.
      apply list_elem_of_fmap. by exists u.
  - intros Hold. apply filter_none. intros [k v] Hin Hk. simpl in Hk.
    apply batch_map_entry, effective_update_pid in Hin as [<- Hv]. auto.
Qed.

Lemma merge_changed_false_iff updates prev :
  changed (merge_loops updates prev) = false ↔
  (∀ i p u, prev !! i = Some p → pid p ∉ ids (take i prev) →
            effective_update (pid p) updates = Some u →
            arePatientsEqual p u = true) ∧
  (∀ u, u ∈ updates → pid u ∈ ids prev).
Proof.
  rewrite merge_loops_spec. simpl.
  rewrite orb_false_iff, walk_changed_false_iff, bool_decide_eq_false.
  rewrite <-leftover_nil_iff. split.
  - intros [Hwalk Hleft]. split.
    + intros i p u Hi Hfirst Hu. apply (Hwalk i p u Hi Hfirst).
      by rewrite batch_map_get.
    + by apply dec_stable.
  - intros [Hwalk Hleft]. split; [|by intros ?].
    intros i p u Hi Hfirst Hget. apply (Hwalk i p u Hi Hfirst).
    by rewrite <-batch_map_get.
Qed.

(** X7: the updater hands back the previous collection itself, same
    object, exactly when the batch brings no new id and no stored entity
    (at the first place its id occurs) differs from the update held for it;
    in every other case the result is a newly allocated collection. *)
Theorem applyUpdates_updater_same_iff updates prevPatients n :
  addr prevPatients < n →
  ((applyUpdates_updater updates prevPatients n).1 = prevPatients ↔
   (∀ i p u, content prevPatients !! i = Some p →
             pid p ∉ ids (take i (content prevPatients)) →
             effective_update (pid p) updates = Some u →
             arePatientsEqual p u = true) ∧
   (∀ u, u ∈ updates → pid u ∈ ids (content prevPatients))) ∧
  ((applyUpdates_updater updates prevPatients n).1 ≠ prevPatients →
   addr (applyUpdates_updater updates prevPatients n).1 = n).
Proof.
  intros Haddr. rewrite <-merge_changed_false_iff.
  destruct (changed (merge_loops updates (content prevPatients))) eqn:Hch.
  - rewrite merged_new_object by done. simpl. split; [|done]. split; [|done].
    intros Heq. rewrite <-Heq in Haddr. simpl in Haddr. lia.
  - rewrite merged_same_object by done. simpl. by split.
Qed.

Lemma applyUpdates_updater_same_iff_witness :
  (applyUpdates_updater [sample_A'] sample_prev 8).1 = sample_prev ∧
  addr (applyUpdates_updater [sample_B'] sample_prev 8).1 = 8.
Proof.
  split.
  - apply (proj1 (applyUpdates_updater_same_iff [sample_A'] sample_prev 8
                    ltac:(simpl; lia))).
    split.
    + intros i p u Hi _ Hu.
      destruct i as [|[|i]]; simpl in Hi; simplify_eq; vm_compute in Hu.
      injection Hu as <-. reflexivity.
    + intros u Hu. apply list_elem_of_In in Hu. simpl in Hu.
      destruct Hu as [<-|[]]. vm_compute. left.
  - apply (proj2 (applyUpdates_updater_same_iff [sample_B'] sample_prev 8
                    ltac:(simpl; lia))).
    vm_compute. discriminate.
Defined.

Lemma merged_first_ids updates prevPatients n i :
  i ≤ length (content prevPatients) →
  ids (take i (content (applyUpdates_updater updates prevPatients n).1))
  = ids (take i (content prevPatients)).
Proof.
  intros Hi. rewrite merged_content, take_app_le
    by (by rewrite walk_kept_length).
  unfold ids. rewrite !fmap_take.
  fold (ids (walk_kept (batch_map updates) (content prevPatients))).
  by rewrite walk_kept_ids by apply batch_map_pid.
Qed.

Lemma merge_again_unchanged updates prevPatients n :
  (∀ u, u ∈ updates → self_equal u) →
  changed (merge_loops updates
             (content (applyUpdates_updater updates prevPatients n).1)) = false.
Proof.
  intros Hself.
  set (merged := (applyUpdates_updater updates prevPatients n).1).
  apply merge_changed_false_iff. split.
  - intros i q u Hi Hfirst Hu.
    destruct (decide (i < length (content prevPatients))) as [Hlt|Hge].
    + destruct (lookup_lt_is_Some_2 _ _ Hlt) as [p Hp].
      unfold merged in Hi, Hfirst.
      rewrite merged_first_ids in Hfirst by lia.
      rewrite (merged_kept_lookup _ _ _ _ _ Hp) in Hi.
      assert (Hpid : pid q = pid p).
      { case_decide; [by simplify_eq|].
        destruct (effective_update (pid p) updates) as [u'|] eqn:Hu';
          [|by simplify_eq].
        destruct (arePatientsEqual p u'); [by simplify_eq|].
        simplify_eq. by apply effective_update_pid in Hu' as [? _]. }
      rewrite Hpid in Hfirst, Hu.
      rewrite decide_False, Hu in Hi by done.
      destruct (arePatientsEqual p u) eqn:Heq; simplify_eq; [done|].
      apply Hself. by apply effective_update_pid in Hu as [_ ?].
    + assert (Hin : q ∈ (leftover updates (content prevPatients)).*2).
      { rewrite <-merged_drop with (n := n). apply list_elem_of_lookup.
        exists (i - length (content prevPatients)).
        rewrite lookup_drop. fold merged. rewrite <-Hi. f_equal. lia. }
      apply leftover_elem in Hin as [Heff _].
      rewrite Heff in Hu. simplify_eq. apply Hself.
      by apply effective_update_pid in Heff as [_ ?].
  - intros u Hu. unfold merged. rewrite merged_ids, elem_of_app.
    destruct (decide (pid u ∈ ids (content prevPatients))); [by left|].
    right. rewrite elem_of_first_occurrences, list_elem_of_filter.
    split; [done|]. apply list_elem_of_fmap. by exists u.
Qed.

(** X8: merging the same batch a second time changes nothing.  When no
    measurement in the batch is [NaN], the second merge returns the
    collection the first one returned, same object: a batch delivered twice
    does not propagate twice. *)
Theorem applyUpdates_updater_idempotent updates prevPatients n :
  (∀ u, u ∈ updates → self_equal u) →
  (applyUpdates_updater updates
     (applyUpdates_updater updates prevPatients n).1
     (applyUpdates_updater updates prevPatients n).2).1
  = (applyUpdates_updater updates prevPatients n).1.
Proof.
  intros Hself. rewrite merged_same_object; [done|].
  by apply merge_again_unchanged.
Qed.

Lemma applyUpdates_updater_idempotent_witness :
  (applyUpdates_updater [sample_C; sample_B']
     (applyUpdates_updater [sample_C; sample_B'] sample_prev 8).1 9).1
  = (applyUpdates_updater [sample_C; sample_B'] sample_prev 8).1.
Proof.
  apply (applyUpdates_updater_idempotent [sample_C; sample_B'] sample_prev 8).
  intros u Hu. apply list_elem_of_In in Hu. simpl in Hu.
  destruct Hu as [<-|[<-|[]]]; reflexivity.
Defined.

(** ** The component over a sequence of socket events *)

Lemma merged_NoDup updates prevPatients n :
  NoDup (ids (content prevPatients)) →
  NoDup (ids (content (applyUpdates_updater updates prevPatients n).1)).
Proof.
  intros Hnd. rewrite merged_ids. apply NoDup_app. split; [done|]. split.
  - intros k Hk. rewrite elem_of_first_occurrences, list_elem_of_filter.
    naive_solver.
  - apply NoDup_first_occurrences.
Qed.

Lemma merged_pid_origin updates prevPatients n p :
  p ∈ content (applyUpdates_updater updates prevPatients n).1 →
  pid p ∈ ids (content prevPatients) ∨ pid p ∈ ids updates.
Proof.
  intros Hp.
  assert (Hin : pid p ∈ ids (content (applyUpdates_updater updates prevPatients n).1)).
  { apply list_elem_of_fmap. by exists p. }
  rewrite merged_ids, elem_of_app in Hin. destruct Hin as [?|Hnew]; [by left|].
  right. apply elem_of_first_occurrences, list_elem_of_filter in Hnew.
  by destruct Hnew.
Qed.

Section Run_facts.
Context (Math_sin Math_round : number → number).

Lemma patients_pushHistoryBatch updates st n :
  patients (pushHistoryBatch Math_sin Math_round updates st n).1 = patients st.
Proof.
  unfold pushHistoryBatch. case_bool_decide; [done|].
  unfold bind, ret. by destruct (pushHistoryBatch_updater _ _ _ _ _).
Qed.

Lemma patients_applyUpdates updates st n :
  patients (applyUpdates Math_sin Math_round updates st n).1 =
  if bool_decide (length (content updates) = 0) then patients st
  else (applyUpdates_updater (content updates) (patients st) n).1.
Proof.
  unfold applyUpdates. case_bool_decide; [done|].
  unfold bind. destruct (applyUpdates_updater _ _ n) as [p n1].
  by rewrite patients_pushHistoryBatch.
Qed.

Lemma historyMap_pushHistoryBatch updates st n :
  historyMap (pushHistoryBatch Math_sin Math_round updates st n).1 =
  if bool_decide (length (content updates) = 0) then historyMap st
  else (pushHistoryBatch_updater Math_sin Math_round (content updates)
          (historyMap st) n).1.
Proof.
  unfold pushHistoryBatch. case_bool_decide; [done|].
  unfold bind, ret. by destruct (pushHistoryBatch_updater _ _ _ _ _).
Qed.

Lemma historyMap_applyUpdates updates st n :
  historyMap (applyUpdates Math_sin Math_round updates st n).1 =
  if bool_decide (length (content updates) = 0) then historyMap st
  else (pushHistoryBatch_updater Math_sin Math_round (content updates)
          (historyMap st) (S n)).1.
Proof.
  unfold applyUpdates. case_bool_decide as Hlen; [done|].
  unfold bind. destruct (applyUpdates_updater _ _ n) as [p n1] eqn:Hp.
  assert (n1 = S n) as ->.
  { unfold applyUpdates_updater, bind, fresh, ret in Hp. by simplify_eq. }
  rewrite historyMap_pushHistoryBatch. simpl. by rewrite bool_decide_false.
Qed.

Lemma on_event_NoDup ev st n :
  snapshot_ids_distinct ev →
  NoDup (ids (content (patients st))) →
  NoDup (ids (content (patients (on_event Math_sin Math_round ev st n).1))).
Proof.
  intros Hev Hnd. destruct ev as [| |initialPatients|updates]; simpl; [done..| |].
  - unfold on_initial_patients. by rewrite patients_pushHistoryBatch.
  - rewrite patients_applyUpdates. case_bool_decide; [done|].
    by apply merged_NoDup.
Qed.

(** X9: the collection stays unique by id.  If every initial snapshot lists
    each id once, then after any sequence of socket events no two entities
    of the collection share an id, however the update batches repeat or
    mix ids. *)
Theorem run_ids_unique events st n :
  Forall snapshot_ids_distinct events →
  NoDup (ids (content (patients st))) →
  NoDup (ids (content (patients (run Math_sin Math_round events st n).1))).
Proof.
  revert st n. induction events as [|ev rest IH]; intros st n Hevs Hnd; [done|].
  apply Forall_cons in Hevs as [Hev Hrest]. simpl. unfold bind.
  pose proof (on_event_NoDup ev st n Hev Hnd) as Hnd'.
  destruct (on_event _ _ ev st n) as [st1 n1]. by apply IH.
Qed.

Lemma on_event_covered ev st n :
  heap_below n (content (historyMap st)) →
  covered st →
  covered (on_event Math_sin Math_round ev st n).1.
Proof.
  intros Hheap Hcov. destruct ev as [| |initialPatients|updates]; simpl; [done..| |].
  - unfold on_initial_patients, covered.
    rewrite patients_pushHistoryBatch, historyMap_pushHistoryBatch. simpl.
    intros p Hp. case_bool_decide as Hlen.
    + apply nil_length_inv in Hlen. rewrite Hlen in Hp.
      by apply elem_of_nil in Hp.
    + apply pushHistoryBatch_updater_is_Some; [done|]. right.
      apply list_elem_of_fmap. by exists p.
  - unfold covered. rewrite patients_applyUpdates, historyMap_applyUpdates.
    case_bool_decide as Hlen; [done|]. intros p Hp.
    apply pushHistoryBatch_updater_is_Some.
    { eapply heap_below_mono; [done|lia]. }
    destruct (merged_pid_origin _ _ _ _ Hp) as [Hold|Hnew]; [|by right].
    left. apply list_elem_of_fmap in Hold as (q&Hpid&Hq). rewrite Hpid.
    by apply Hcov.
Qed.

Lemma run_covered events st n :
  heap_below n (content (historyMap st)) →
  covered st →
  covered (run Math_sin Math_round events st n).1.
Proof.
  revert st n. induction events as [|ev rest IH]; intros st n Hheap Hcov; [done|].
  simpl. unfold bind.
  pose proof (on_event_invariant Math_sin Math_round ev st n Hheap)
    as (_&Hbelow&_).
  pose proof (on_event_covered ev st n Hheap Hcov) as Hcov'.
  destruct (on_event _ _ ev st n) as [st1 n1]. by apply IH.
Qed.

(** X10: what a row shows once the component runs.  After any sequence of
    socket events, a row whose index lies within the collection renders a
    card for the entity at that index with the history stored for its id,
    which holds exactly [HISTORY_LENGTH] samples: the empty fallback history
    is never used and rendering allocates nothing.  A row past the end
    renders the empty placeholder. *)
Theorem PatientRow_after_run events index m :
  match content (patients (run Math_sin Math_round events initial_state 2).1)
          !! index with
  | Some p =>
      ∃ h, content (historyMap (run Math_sin Math_round events initial_state 2).1)
             !! pid p = Some h ∧
           length (content h) = HISTORY_LENGTH ∧
           PatientRow index
             (patients (run Math_sin Math_round events initial_state 2).1)
             (historyMap (run Math_sin Math_round events initial_state 2).1) m
           = (CardRow {| card_patient := p; card_history := h |}, m)
  | None =>
      length (content (patients (run Math_sin Math_round events initial_state 2).1))
      ≤ index ∧
      PatientRow index
        (patients (run Math_sin Math_round events initial_state 2).1)
        (historyMap (run Math_sin Math_round events initial_state 2).1) m
      = (EmptyRow, m)
  end.
Proof.
  assert (Hheap : heap_below 2 (content (historyMap initial_state))).
  { intros k h Hk. simpl in Hk. by rewrite lookup_empty in Hk. }
  assert (Hfull : histories_full (content (historyMap initial_state))).
  { intros k h Hk. simpl in Hk. by rewrite lookup_empty in Hk. }
  assert (Hcov : covered initial_state).
  { intros p Hp. simpl in Hp. by apply elem_of_nil in Hp. }
  pose proof (run_covered events initial_state 2 Hheap Hcov) as Hcov'.
  pose proof (run_invariant Math_sin Math_round events initial_state 2
                Hheap Hfull) as [_ Hfull'].
  destruct (run _ _ events initial_state 2) as [st n]. simpl in *.
  unfold PatientRow.
  destruct (content (patients st) !! index) as [p|] eqn:Hp.
  - destruct (Hcov' p (list_elem_of_lookup_2 _ _ _ Hp)) as [h Hh].
    exists h. rewrite Hh. split; [done|]. split; [by eapply Hfull'|done].
  - split; [by apply lookup_ge_None|done].
Qed.

(** X11: a card is not rendered again for an entity that a batch leaves
    alone.  If the update held for the entity's id, when there is one,
    equals the stored entity, and every update for that id repeats the last
    sample of its history, then after the batch the row gets the same
    entity object and the same history object, and the comparator given to
    [memo] answers that the props are equal. *)
Theorem PatientCard_skipped_for_untouched_entity updates st n index p h m m' :
  heap_below n (content (historyMap st)) →
  content (patients st) !! index = Some p →
  content (historyMap st) !! pid p = Some h →
  (∀ u, effective_update (pid p) (content updates) = Some u →
        arePatientsEqual p u = true) →
  (∀ u, u ∈ content updates → pid u = pid p →
        last_is (hr u) (content h) = true) →
  ∃ props props',
    PatientRow index (patients st) (historyMap st) m = (CardRow props, m) ∧
    PatientRow index
      (patients (applyUpdates Math_sin Math_round updates st n).1)
      (historyMap (applyUpdates Math_sin Math_round updates st n).1) m'
    = (CardRow props', m') ∧
    PatientCard_propsAreEqual props props' = true.
Proof.
  intros Hheap Hp Hh Hsame Hlast.
  exists {| card_patient := p; card_history := h |},
         {| card_patient := p; card_history := h |}.
  split; [|split].
  - unfold PatientRow. by rewrite Hp, Hh.
  - unfold PatientRow.
    rewrite patients_applyUpdates, historyMap_applyUpdates.
    case_bool_decide as Hlen; [by rewrite Hp, Hh|].
    assert (Hp' : content (applyUpdates_updater (content updates) (patients st) n).1
                    !! index = Some p).
    { rewrite (merged_kept_lookup _ _ _ _ _ Hp). f_equal.
      case_decide; [done|].
      destruct (effective_update _ _) as [u|] eqn:Hu; [|done].
      by rewrite (Hsame u). }
    rewrite Hp'.
    rewrite pushHistoryBatch_updater_frame, Hh; [done| |].
    + eapply heap_below_mono; [done|lia].
    + rewrite Hh. simpl. apply last_None, filter_none.
      intros u Hu [Hpid Hl]. by rewrite (Hlast u Hu Hpid) in Hl.
  - unfold PatientCard_propsAreEqual, same_ref. simpl.
    by rewrite !bool_decide_eq_true_2.
Qed.
End Run_facts.

Lemma run_ids_unique_witness :
  NoDup (ids (content (patients
    (run flat_wave no_rounding sample_events sample_state 30).1))).
Proof.
  apply (run_ids_unique flat_wave no_rounding sample_events sample_state 30).
  - unfold sample_events.
    repeat (apply Forall_cons; split); try apply Forall_nil; try exact I.
    apply (bool_decide_unpack _). vm_compute. exact I.
  - apply (bool_decide_unpack _). vm_compute. exact I.
Defined.

Lemma PatientCard_skipped_for_untouched_entity_witness :
  ∃ props props',
    PatientRow 1 (patients sample_ward) (historyMap sample_ward) 30
    = (CardRow props, 30) ∧
    PatientRow 1
      (patients (applyUpdates flat_wave no_rounding sample_repeat sample_ward 30).1)
      (historyMap (applyUpdates flat_wave no_rounding sample_repeat sample_ward 30).1)
      40
    = (CardRow props', 40) ∧
    PatientCard_propsAreEqual props props' = true.
Proof.
  apply (PatientCard_skipped_for_untouched_entity flat_wave no_rounding
           sample_repeat sample_ward 30 1 sample_x60 sample_history 30 40).
  - intros k h Hk. apply sample_histories_below in Hk. lia.
  - reflexivity.
  - reflexivity.
  - intros u Hu. vm_compute in Hu. injection Hu as <-. reflexivity.
  - intros u Hu _. apply list_elem_of_In in Hu. simpl in Hu.
    destruct Hu as [<-|[]]. reflexivity.
Defined.

Section Connectivity_facts.
Context (Math_sin Math_round : number → number).

Lemma on_event_same_data ev st1 st2 n :
  patients st1 = patients st2 → historyMap st1 = historyMap st2 →
  patients (on_event Math_sin Math_round ev st1 n).1
  = patients (on_event Math_sin Math_round ev st2 n).1 ∧
  historyMap (on_event Math_sin Math_round ev st1 n).1
  = historyMap (on_event Math_sin Math_round ev st2 n).1 ∧
  (on_event Math_sin Math_round ev st1 n).2
  = (on_event Math_sin Math_round ev st2 n).2.
Proof.
  destruct st1 as [p1 h1 c1], st2 as [p2 h2 c2]. simpl. intros -> ->.
  destruct ev as [| |initialPatients|updates]; simpl; [done..| |].
  - unfold on_initial_patients, pushHistoryBatch. simpl.
    case_bool_decide; [done|]. unfold bind, ret.
    by destruct (pushHistoryBatch_updater _ _ _ _ _).
  - unfold applyUpdates, pushHistoryBatch. simpl.
    case_bool_decide; [done|]. unfold bind, ret.
    destruct (applyUpdates_updater _ _ _). simpl.
    by destruct (pushHistoryBatch_updater _ _ _ _ _).
Qed.

Lemma run_same_data events st1 st2 n :
  patients st1 = patients st2 → historyMap st1 = historyMap st2 →
  patients (run Math_sin Math_round events st1 n).1
  = patients (run Math_sin Math_round (filter is_data_event events) st2 n).1 ∧
  historyMap (run Math_sin Math_round events st1 n).1
  = historyMap (run Math_sin Math_round (filter is_data_event events) st2 n).1.
Proof.
  revert st1 st2 n.
  induction events as [|ev rest IH]; intros st1 st2 n Hp Hh; [done|].
  rewrite filter_cons. destruct (decide (is_data_event ev)) as [Hdata|Hdata].
  - simpl. unfold bind.
    destruct (on_event_same_data ev st1 st2 n Hp Hh) as (Hp'&Hh'&Hn').
    destruct (on_event _ _ ev st1 n) as [st1' n1],
             (on_event _ _ ev st2 n) as [st2' n2].
    simpl in *. subst n2. by apply IH.
  - destruct ev; simpl in Hdata; try (by destruct Hdata);
      simpl; unfold bind, ret; by apply IH.
Qed.

(** X12: connecting and disconnecting never touch what is displayed.  The
    collection and the history map after any sequence of socket events are
    the objects that the entity-carrying events alone produce: a dropped
    connection clears neither. *)
Theorem run_ignores_connectivity events st n :
  patients (run Math_sin Math_round events st n).1
  = patients (run Math_sin Math_round (filter is_data_event events) st n).1 ∧
  historyMap (run Math_sin Math_round events st n).1
  = historyMap (run Math_sin Math_round (filter is_data_event events) st n).1.
Proof. by apply run_same_data. Qed.
End Connectivity_facts.

(** ** Worker task pipeline: the other events *)

Lemma caller_detached c later :
  listening c = false → foldl caller_step c later = c.
Proof.
  intros Hoff. induction later as [|ev later IH]; [done|].
  simpl. unfold caller_step at 2. by rewrite Hoff.
Qed.

(** X13: the first event from the worker decides the promise, and nothing
    after it counts.  A reply settles it by its [ok] flag, an error event
    rejects it with that error, an exit rejects it with the exit code unless
    the code is 0; every listener is detached by that first event, so
    whatever follows leaves the promise as it is. *)
Theorem caller_first_event_decides (ev : WorkerEvent) (later : list WorkerEvent) :
  foldl caller_step {| promise := Pending; listening := true |} (ev :: later)
  = {| promise :=
         match ev with
         | OnMessage msg =>
             if ok msg then Resolved
             else Rejected (ErrorMessage (error_or_default (error msg)))
         | OnError err => Rejected (WorkerError err)
         | OnExit code =>
             if bool_decide (code ≠ 0%Z) then Rejected (ExitedWithCode code)
             else Pending
         end;
       listening := false |}.
Proof.
  simpl. rewrite caller_detached; by destruct ev.
Qed.

(** X14: a worker that exits before it replies leaves the promise pending
    for good exactly when its exit code is 0.  A non-zero code rejects the
    promise; after a clean exit no later reply, error or exit can settle it,
    so the caller waits forever. *)
Theorem caller_exit_before_reply (code : Z) (later : list WorkerEvent) :
  (promise (foldl caller_step {| promise := Pending; listening := true |}
              (OnExit code :: later)) = Pending ↔ code = 0%Z) ∧
  (code ≠ 0%Z →
   promise (foldl caller_step {| promise := Pending; listening := true |}
              (OnExit code :: later)) = Rejected (ExitedWithCode code)).
Proof.
  simpl. rewrite caller_detached by done. simpl.
  case_bool_decide as Hcode; simpl.
  - split; [|done]. split; [done|]. by intros ->.
  - by subst.
Qed.

Lemma caller_exit_before_reply_witness :
  promise (foldl caller_step {| promise := Pending; listening := true |}
             [OnExit 0; OnMessage {| ok := true; error := None |}]) = Pending ∧
  promise (foldl caller_step {| promise := Pending; listening := true |}
             [OnExit 1; OnMessage {| ok := true; error := None |}])
  = Rejected (ExitedWithCode 1).
Proof.
  split.
  - apply (proj2 (proj1 (caller_exit_before_reply 0
                           [OnMessage {| ok := true; error := None |}]))).
    reflexivity.
  - apply (proj2 (caller_exit_before_reply 1
                    [OnMessage {| ok := true; error := None |}])).
    discriminate.
Defined.

(** ** A batch delivered twice *)

Lemma NoDup_ids_inj (l : list Patient) u u' :
  NoDup (ids l) → u ∈ l → u' ∈ l → pid u = pid u' → u = u'.
Proof.
  unfold ids. induction l as [|x l IH]; csimpl; [by intros _ ?%elem_of_nil|].
  intros [Hx Hnd]%NoDup_cons [->|Hu]%elem_of_cons [->|Hu']%elem_of_cons Hpid.
  - done.
  - destruct Hx. rewrite Hpid. apply list_elem_of_fmap. by exists u'.
  - destruct Hx. rewrite <-Hpid. apply list_elem_of_fmap. by exists u.
  - by apply IH.
Qed.

Lemma self_equal_hr u : self_equal u → strict_eq (hr u) (hr u) = true.
Proof.
  unfold self_equal, arePatientsEqual, hr. rewrite !andb_true_iff. tauto.
Qed.

Lemma Dashboard_eq (a b : Dashboard) :
  patients a = patients b → historyMap a = historyMap b →
  isConnected a = isConnected b → a = b.
Proof. destruct a, b. simpl. by intros -> -> ->. Qed.

Section Twice_facts.
Context (Math_sin Math_round : number → number).

Lemma appendHistory_last_is history nextValue patient a :
  strict_eq nextValue nextValue = true →
  last_is nextValue
    (content (appendHistory Math_sin Math_round history nextValue patient a).1)
  = true.
Proof.
  intros Hrefl.
  destruct (history_or_seed_spec Math_sin Math_round history patient a)
    as (base&n'&Hb&_).
  destruct (last_is nextValue (content base)) eqn:Hl.
  - by rewrite (appendHistory_same _ _ _ _ _ _ base n').
  - rewrite (appendHistory_new _ _ _ _ _ _ base n') by done. cbn [fst content].
    apply (last_is_true Math_sin Math_round). exists nextValue.
    by rewrite last_snoc.
Qed.

Lemma isConnected_applyUpdates updates st n :
  isConnected (applyUpdates Math_sin Math_round updates st n).1 = isConnected st.
Proof.
  unfold applyUpdates, pushHistoryBatch. case_bool_decide; [done|].
  unfold bind, ret. destruct (applyUpdates_updater _ _ _). simpl.
  by destruct (pushHistoryBatch_updater _ _ _ _ _).
Qed.

(** After a batch with distinct ids and no [NaN], every update finds its
    own heart rate as the last sample of its history. *)
Lemma pushHistoryBatch_updater_settled updates prev n u :
  heap_below n (content prev) →
  NoDup (ids updates) →
  (∀ u, u ∈ updates → self_equal u) →
  u ∈ updates →
  refreshes
    (content (pushHistoryBatch_updater Math_sin Math_round updates prev n).1) u
  = false.
Proof.
  intros Hheap Hnd Hself Hu. unfold refreshes.
  rewrite (pushHistoryBatch_updater_content Math_sin Math_round) by done.
  pose proof (history_forEach_lookup Math_sin Math_round (content prev) updates
                (content prev, false) n (S n) (pid u) Hheap ltac:(lia)) as Hlook.
  destruct (recorded_update (content prev !! pid u) (pid u) updates)
    as [u'|] eqn:Hrec.
  - destruct Hlook as (a&_&_&->).
    pose proof (recorded_update_elem _ _ _ _ Hrec) as [Hu' Hpid].
    assert (u' = u) as -> by by apply (NoDup_ids_inj updates).
    apply negb_false_iff, appendHistory_last_is, self_equal_hr. by apply Hself.
  - simpl in Hlook. rewrite Hlook.
    destruct (content prev !! pid u) as [h|] eqn:Hcur; simpl in Hrec.
    + apply negb_false_iff.
      destruct (last_is (hr u) (content h)) eqn:Hl; [done|].
      apply last_None in Hrec.
      by destruct (filter_nil_not_elem_of _ _ u Hrec).
    + apply effective_update_None in Hrec. destruct Hrec.
      apply list_elem_of_fmap. by exists u.
Qed.

(** X15: a batch delivered twice changes the state once.  For a batch that
    names each id once and carries no [NaN], handling it a second time
    leaves the whole component state as the first handling left it: the
    same collection object and the same history map object, so nothing is
    propagated or drawn again. *)
Theorem applyUpdates_idempotent updates st n :
  heap_below n (content (historyMap st)) →
  NoDup (ids (content updates)) →
  (∀ u, u ∈ content updates → self_equal u) →
  (applyUpdates Math_sin Math_round updates
     (applyUpdates Math_sin Math_round updates st n).1
     (applyUpdates Math_sin Math_round updates st n).2).1
  = (applyUpdates Math_sin Math_round updates st n).1.
Proof.
  intros Hheap Hnd Hself.
  pose proof (on_event_invariant Math_sin Math_round (VitalsUpdate updates)
                st n Hheap) as (_&Hbelow&_). simpl in Hbelow.
  pose proof (patients_applyUpdates Math_sin Math_round updates st n) as Hp1.
  pose proof (historyMap_applyUpdates Math_sin Math_round updates st n) as Hh1.
  destruct (applyUpdates Math_sin Math_round updates st n) as [st1 n1] eqn:Hfirst.
  simpl in *. apply Dashboard_eq.
  - rewrite patients_applyUpdates. case_bool_decide; [done|].
    rewrite Hp1. rewrite merged_same_object; [done|].
    by apply merge_again_unchanged.
  - rewrite historyMap_applyUpdates. case_bool_decide; [done|].
    rewrite pushHistoryBatch_updater_result
      by (eapply heap_below_mono; [done|lia]).
    assert (Hquiet : existsb (refreshes (content (historyMap st1)))
                       (content updates) = false).
    { destruct (existsb _ _) eqn:Hex; [|done].
      apply existsb_exists in Hex as (u&Hu%list_elem_of_In&Hr).
      rewrite Hh1 in Hr.
      rewrite pushHistoryBatch_updater_settled in Hr; [done| |done..].
      eapply heap_below_mono; [done|lia]. }
    by rewrite Hquiet.
  - apply isConnected_applyUpdates.
Qed.
End Twice_facts.

Lemma applyUpdates_idempotent_witness :
  (applyUpdates flat_wave no_rounding sample_batch
     (applyUpdates flat_wave no_rounding sample_batch sample_ward 30).1
     (applyUpdates flat_wave no_rounding sample_batch sample_ward 30).2).1
  = (applyUpdates flat_wave no_rounding sample_batch sample_ward 30).1.
Proof.
  apply (applyUpdates_idempotent flat_wave no_rounding sample_batch
           sample_ward 30).
  - intros k h Hk. apply sample_histories_below in Hk. lia.
  - apply (bool_decide_unpack _). vm_compute. exact I.
  - intros u Hu. apply list_elem_of_In in Hu. simpl in Hu.
    destruct Hu as [<-|[<-|[]]]; reflexivity.
Defined.

(** ** The history map only grows *)

Section Growth_facts.
Context (Math_sin Math_round : number → number).

Lemma on_event_history_kept ev st n k :
  heap_below n (content (historyMap st)) →
  is_Some (content (historyMap st) !! k) →
  is_Some (content (historyMap (on_event Math_sin Math_round ev st n).1) !! k).
Proof.
  intros Hheap Hk. destruct ev as [| |initialPatients|updates]; simpl; [done..| |].
  - unfold on_initial_patients. rewrite historyMap_pushHistoryBatch. simpl.
    case_bool_decide; [done|].
    apply pushHistoryBatch_updater_is_Some; [done | by left].
  - rewrite historyMap_applyUpdates. case_bool_decide; [done|].
    apply pushHistoryBatch_updater_is_Some; [|by left].
    eapply heap_below_mono; [done|lia].
Qed.

(** X17: no history is ever dropped.  Every id that has a history keeps one
    through any sequence of socket events: a new snapshot replaces the
    collection but not the history map, and no event removes an entry, so
    the map only grows. *)
Theorem run_history_never_dropped events st n :
  heap_below n (content (historyMap st)) →
  dom (content (historyMap st)) ⊆
  dom (content (historyMap (run Math_sin Math_round events st n).1)).
Proof.
  revert st n. induction events as [|ev rest IH]; intros st n Hheap; [done|].
  simpl. unfold bind.
  pose proof (on_event_invariant Math_sin Math_round ev st n Hheap)
    as (_&Hbelow&_).
  assert (Hkept : dom (content (historyMap st)) ⊆
                  dom (content (historyMap
                         (on_event Math_sin Math_round ev st n).1))).
  { intros k Hk. apply elem_of_dom. apply on_event_history_kept; [done|].
    by apply elem_of_dom. }
  destruct (on_event _ _ ev st n) as [st1 n1]. simpl in *.
  etrans; [exact Hkept | by apply IH].
Qed.
End Growth_facts.

Lemma run_history_never_dropped_witness :
  dom (content (historyMap sample_ward)) ⊆
  dom (content (historyMap
         (run flat_wave no_rounding sample_events sample_ward 30).1)).
Proof.
  apply (run_history_never_dropped flat_wave no_rounding sample_events
           sample_ward 30).
  intros k h Hk. apply sample_histories_below in Hk. lia.
Defined.

(** ** Nothing received is lost *)

Section Received_facts.
Context (Math_sin Math_round : number → number).

(** X18: every entity received is taken in.  Provided no entity of the
    event makes the history updater read an inherited member of the history
    object, the handler of a snapshot or of an update batch completes, and
    after it each id the event carried is the id of an entity of the
    collection and has a history in the history map, whatever else the
    state held before. *)
Theorem on_event_registers_entities ev st n u :
  heap_below n (content (historyMap st)) →
  no_inherited_read (content (historyMap st)) (event_entities ev) →
  u ∈ event_entities ev →
  ∃ st' n',
    on_event_js Math_sin Math_round ev st n = (Some st', n') ∧
    pid u ∈ ids (content (patients st')) ∧
    is_Some (content (historyMap st') !! pid u).
Proof.
  intros Hheap Hown Hu. eexists _, _.
  split; [by apply on_event_js_own|].
  assert (Hid : ∀ l : list Patient, u ∈ l → pid u ∈ ids l).
  { intros l Hl. apply list_elem_of_fmap. by exists u. }
  clear Hown.
  destruct ev as [| |initialPatients|updates]; simpl in *;
    try (by apply elem_of_nil in Hu).
  - unfold on_initial_patients.
    rewrite patients_pushHistoryBatch, historyMap_pushHistoryBatch. simpl.
    split; [by apply Hid|]. case_bool_decide as Hlen.
    + apply nil_length_inv in Hlen. rewrite Hlen in Hu.
      by apply elem_of_nil in Hu.
    + apply pushHistoryBatch_updater_is_Some; [done|]. right. by apply Hid.
  - rewrite patients_applyUpdates, historyMap_applyUpdates.
    case_bool_decide as Hlen.
    { apply nil_length_inv in Hlen. rewrite Hlen in Hu.
      by apply elem_of_nil in Hu. }
    split.
    + rewrite merged_ids, elem_of_app.
      destruct (decide (pid u ∈ ids (content (patients st)))); [by left|].
      right. rewrite elem_of_first_occurrences, list_elem_of_filter.
      split; [done | by apply Hid].
    + apply pushHistoryBatch_updater_is_Some.
      { eapply heap_below_mono; [done|lia]. }
      right. by apply Hid.
Qed.

(** Where an entity of the event does read an inherited member, the handler
    throws and the entity is not taken in. *)
Lemma on_event_js_inherited ev st n :
  is_data_event ev = true →
  (∃ u, u ∈ event_entities ev ∧
        read_history (content (historyMap st)) (pid u) = ReadInherited) →
  (on_event_js Math_sin Math_round ev st n).1 = None.
Proof.
  intros Hdata (u&Hu&Hread).
  destruct ev as [| |initialPatients|updates]; simpl in *; try done.
  - unfold on_initial_patients_js, pushHistoryBatch_js. simpl.
    case_bool_decide as Hlen.
    { apply nil_length_inv in Hlen. rewrite Hlen in Hu.
      by apply elem_of_nil in Hu. }
    unfold bind, ret.
    pose proof (proj2 (pushHistoryBatch_updater_js_throws Math_sin Math_round
      (content initialPatients) (historyMap st) n)) as Hthrow.
    destruct (pushHistoryBatch_updater_js _ _ _ _ _) as [[h|] n1]; simpl in *;
      [|done].
    by discriminate Hthrow; eauto.
  - unfold applyUpdates_js, pushHistoryBatch_js.
    case_bool_decide as Hlen.
    { apply nil_length_inv in Hlen. rewrite Hlen in Hu.
      by apply elem_of_nil in Hu. }
    unfold bind, ret.
    destruct (applyUpdates_updater _ _ _) as [p n1]. simpl.
    pose proof (proj2 (pushHistoryBatch_updater_js_throws Math_sin Math_round
      (content updates) (historyMap st) n1)) as Hthrow.
    destruct (pushHistoryBatch_updater_js _ _ _ _ _) as [[h|] n2]; simpl in *;
      [|done].
    by discriminate Hthrow; eauto.
Qed.
End Received_facts.

Lemma on_event_registers_entities_witness :
  ∃ st' n',
    on_event_js flat_wave no_rounding (VitalsUpdate sample_batch)
      sample_ward 30 = (Some st', n') ∧
    pid sample_C ∈ ids (content (patients st')) ∧
    is_Some (content (historyMap st') !! pid sample_C).
Proof.
  apply (on_event_registers_entities flat_wave no_rounding
           (VitalsUpdate sample_batch) sample_ward 30 sample_C).
  - intros k h Hk. apply sample_histories_below in Hk. lia.
  - simpl. sample_own_reads.
  - simpl. left.
Defined.
